(** * vue-easy-google-autocomplete: the debounce utility and the
      [useGooglePlacesAutocomplete] hook, embedded and verified.

    The development follows the two source modules:
    - [utils/debounce]: [debounce(func, wait)], over an explicit model of the
      host's timer table ([setTimeout] / [clearTimeout]);
    - [hooks/AutocompleteGoogle]: the script loader [loadGoogleMapsApi], the
      module-level flag [googleMapsApiLoaded] and the hook's closures
      ([fetchPredictions], [fetchPlaceDetails], [resetPredictions], the
      [onMounted] callback), as transitions of one process state.

    Time is virtual and counted in whole milliseconds.  One event of the
    model is one task of the host's event loop, run to completion together
    with the promise continuations it releases. *)

From Stdlib Require Import ZArith String List Bool Lia.
From stdpp Require Import base option list strings gmap.

Local Open Scope Z_scope.
Local Open Scope nat_scope.

(* ===================================================================== *)
(** * The host's timers *)
(* ===================================================================== *)

Section timers.
Context {A : Type}.

(** A scheduled callback: the handle [setTimeout] returned, the instant at
    which it becomes due, and what the callback closes over. *)
Record Timer := mkTimer { handle : nat; due : nat; payload : A }.

(** The timer table: the current instant, the next handle to hand out and
    the scheduled callbacks, earliest first (FIFO among equal instants). *)
Record Timers := mkTimers { clock : nat; fresh : nat; queue : list Timer }.

(** Handles are integers greater than zero. *)
Definition no_timers : Timers := {| clock := 0; fresh := 1; queue := [] |}.

Fixpoint enqueue (t : Timer) (q : list Timer) : list Timer :=
  match q with
  | [] => [t]
  | u :: q' => if due u <=? due t then u :: enqueue t q' else t :: q
  end.

(** The time the host waits for a timer.  It keeps the delay as a signed
    32-bit integer of milliseconds: a negative delay counts as zero
    ([Z.to_nat]), and a delay of [2^31] or more does not fit and is not
    waited for, the callback is due at once. *)
Definition timer_delay (delay : Z) : nat :=
  if (delay <? 2 ^ 31)%Z then Z.to_nat delay else 0.

(** [setTimeout(cb, delay)]. *)
Definition setTimeout (x : A) (delay : Z) (tm : Timers) : nat * Timers :=
  let h := fresh tm in
  (h, {| clock := clock tm;
         fresh := S h;
         queue := enqueue (mkTimer h (clock tm + timer_delay delay) x) (queue tm) |}).

(** [clearTimeout(h)]: forgets the callback if it has not run yet, and does
    nothing otherwise. *)
Definition clearTimeout (h : nat) (tm : Timers) : Timers :=
  {| clock := clock tm;
     fresh := fresh tm;
     queue := filter (λ t, handle t ≠ h) (queue tm) |}.

Fixpoint take_due (t : nat) (q : list Timer) : list Timer * list Timer :=
  match q with
  | [] => ([], [])
  | u :: q' =>
      if due u <=? t
      then let '(f, r) := take_due t q' in (u :: f, r)
      else ([], q)
  end.

(** The event loop idles for [d] milliseconds: every callback due by then
    is taken off the table, in order, to be run. *)
Definition elapse (d : nat) (tm : Timers) : list A * Timers :=
  let t := clock tm + d in
  let '(f, r) := take_due t (queue tm) in
  (payload <$> f, {| clock := t; fresh := fresh tm; queue := r |}).

(** JavaScript truthiness of a timer handle, as tested by [if (timeout)]. *)
Definition truthy_handle (h : nat) : bool := negb (h =? 0).

(** The closure returned by [debounce]: [timeout] is the variable the
    closure captures, passed in and handed back.
<<
    if (timeout) { clearTimeout(timeout); }
    timeout = setTimeout(() => { func(...args); }, wait);
>> *)
Definition debounced (wait : Z) (timeout : option nat) (args : A)
    (tm : Timers) : option nat * Timers :=
  let tm1 :=
    match timeout with
    | Some h => if truthy_handle h then clearTimeout h tm else tm
    | None => tm
    end in
  let '(h, tm2) := setTimeout args wait tm1 in
  (Some h, tm2).
End timers.

Arguments Timer : clear implicits.
Arguments Timers : clear implicits.

(* ===================================================================== *)
(** * [debounce(func, wait)] as a system of its own *)
(* ===================================================================== *)

Module Debounce.
Section debounce.
Context {A St : Type}.
Variable func : A → St → St.
Variable wait : Z.

(** One debounced function: the captured [timeout], the timer table it
    schedules on, and the state [func] acts upon. *)
Record state := mk { timeout : option nat; timers : Timers A; target : St }.

(** [debounce(func, wait)]: [let timeout] starts out undefined. *)
Definition debounce (s0 : St) : state :=
  {| timeout := None; timers := no_timers; target := s0 |}.

(** What happens to a debounced function: it is called, or the event loop
    is left alone for [d] milliseconds and runs the callbacks that fall due
    within them, the one due at the last instant included.  [func] itself
    does not call the debounced function back. *)
Inductive Action :=
| Invoke (args : A)
| Idle (d : nat).

Definition act (a : Action) (s : state) : state :=
  match a with
  | Invoke x =>
      let '(to, tm) := debounced wait (timeout s) x (timers s) in
      {| timeout := to; timers := tm; target := target s |}
  | Idle d =>
      let '(fired, tm) := elapse d (timers s) in
      {| timeout := timeout s; timers := tm;
         target := foldl (λ s x, func x s) (target s) fired |}
  end.

Definition run (l : list Action) (s : state) : state := foldl (λ s a, act a s) s l.

(** A train of calls: the first one, then each further call with the time
    elapsed since the one before it. *)
Fixpoint calls (a0 : A) (rest : list (nat * A)) : list Action :=
  match rest with
  | [] => [Invoke a0]
  | (d, a) :: rest' => Invoke a0 :: Idle d :: calls a rest'
  end.

Fixpoint last_args (a0 : A) (rest : list (nat * A)) : A :=
  match rest with
  | [] => a0
  | (_, a) :: rest' => last_args a rest'
  end.

(** The calls of a train that outlive their quiet period, when [D]
    milliseconds pass after the last one. *)
Fixpoint reaching (a0 : A) (rest : list (nat * A)) (D : nat) : list A :=
  match rest with
  | [] => if Z.to_nat wait <=? D then [a0] else []
  | (d, a) :: rest' =>
      (if Z.to_nat wait <=? d then [a0] else []) ++ reaching a rest' D
  end.

(** What holds of every state the system can be in: at most one callback
    is scheduled, and it is the one [timeout] names. *)
Definition wf (s : state) : Prop :=
  0 < fresh (timers s) ∧
  (queue (timers s) = [] ∨
   ∃ u, queue (timers s) = [u] ∧ timeout s = Some (handle u) ∧ handle u ≠ 0).

End debounce.
End Debounce.

(* ===================================================================== *)
(** * JavaScript values and the hook's data *)
(* ===================================================================== *)

(** The values an options object may hold.  Numbers are whole. *)
#[warnings="-register-all"]
Inductive JsVal :=
| JUndefined
| JNull
| JBool (b : bool)
| JNum (n : Z)
| JStr (s : string)
| JArr (l : list JsVal)
| JObj (o : list (string * JsVal)).

(** A plain object: its own properties, by name. *)
Abbreviation JsObject := (gmap string JsVal).

(** [interface Prediction]. *)
Record Prediction := { description : string; place_id : string }.

(** [google.maps.places.PlaceResult] is an object of the service's. *)
Abbreviation PlaceResult := (gmap string JsVal).

(** [google.maps.places.PlacesServiceStatus]. *)
Inductive PlacesServiceStatus :=
| OK
| ZERO_RESULTS
| INVALID_REQUEST
| NOT_FOUND
| OVER_QUERY_LIMIT
| REQUEST_DENIED
| UNKNOWN_ERROR.

#[global] Instance PlacesServiceStatus_eq_dec : EqDecision PlacesServiceStatus.
Proof. solve_decision. Defined.

(** A promise: not settled yet, fulfilled with a value, or rejected with an
    [Error] carrying a message. *)
Inductive Settle (R : Type) :=
| Pending
| Resolved (r : R)
| Rejected (message : string).
Arguments Pending {R}.
Arguments Resolved {R} r.
Arguments Rejected {R} message.

(** [interface AutocompleteOptions]: every field is optional. *)
Module Options.
Record t := mk {
  debounceTime : option Z;
  predictionOptions : option JsObject;
  libraries : option (list string);
  language : option string
}.
(** [options: AutocompleteOptions = {}] *)
Definition empty : t :=
  {| debounceTime := None; predictionOptions := None;
     libraries := None; language := None |}.
End Options.

(** [x || d] on an optional number: zero and [undefined] are falsy. *)
Definition number_or (x : option Z) (d : Z) : Z :=
  match x with
  | Some n => if (n =? 0)%Z then d else n
  | None => d
  end.

(** [x || d] on an optional string: the empty string and [undefined] are
    falsy. *)
Definition string_or (x : option string) (d : string) : string :=
  match x with
  | Some s => if decide (s = ""%string) then d else s
  | None => d
  end.

(** [x || d] on an optional object or array: only [undefined] is falsy. *)
Definition object_or {X : Type} (x : option X) (d : X) : X :=
  match x with
  | Some o => o
  | None => d
  end.

(** [{ input, ...predictionOptions }]: the spread properties are written
    after [input], so they win. *)
Definition prediction_request (input : string) (predictionOptions : JsObject)
    : JsObject :=
  predictionOptions ∪ {[ "input"%string := JStr input ]}.

(** [libraries.join(',')] *)
Definition join (sep : string) (l : list string) : string := String.concat sep l.

(** The template literal assigned to [script.src]. *)
Definition script_src (apiKey : string) (libraries : list string)
    (language : string) : string :=
  ("https://maps.googleapis.com/maps/api/js?key=" +:+ apiKey +:+
   "&libraries=" +:+ join "," libraries +:+ "&language=" +:+ language)%string.

(** A [<script>] element under [document.head], with the state of the
    promise [loadGoogleMapsApi] made for it. *)
Record Script := {
  src : string;
  async : bool;
  defer : bool;
  load_promise : Settle ()
}.

(** What [loadGoogleMapsApi] returns: a promise already fulfilled, or the
    one that settles with script number [k]. *)
Inductive LoadPromise :=
| AlreadyResolved
| OfScript (k : nat).

(** The closure environment of one call of [useGooglePlacesAutocomplete]:
    the four constants, the refs, the [timeout] captured by the debounced
    closure, and where its mounted hook stands. *)
Record Hook := {
  apiKey : string;
  debounceTime : Z;
  predictionOptions : JsObject;
  libraries : list string;
  language : string;
  predictions : list Prediction;
  loading : bool;
  isGoogleMapsApiLoaded : bool;
  addressInfo : option JsObject;
  timeout : option nat;
  mounted : bool;
  awaiting : option nat
}.

(** A call of [getPlacePredictions] received by the service. *)
Record PredictionQuery := {
  pq_hook : nat;
  pq_request : JsObject;
  pq_answered : bool
}.

(** A call of [getDetails] received by the service, for the request
    [{ placeId }], and the promise its callback settles. *)
Record DetailsQuery := {
  dq_promise : nat;
  dq_placeId : string;
  dq_answered : bool
}.

(** The whole process. *)
Record Process := {
  googleMapsApiLoaded : bool;        (* [let googleMapsApiLoaded = false] *)
  google_maps_places : bool;         (* is [google.maps.places] there? *)
  document_head : list Script;
  console : list (string * string);  (* [console.error(label, error)] *)
  timers : Timers (nat * string);
  hooks : list Hook;
  predictionQueries : list PredictionQuery;
  detailsQueries : list DetailsQuery;
  promises : list (Settle (option PlaceResult));
  unhandled : list string            (* unhandled rejections, uncaught errors *)
}.

Definition start : Process :=
  {| googleMapsApiLoaded := false;
     google_maps_places := false;
     document_head := [];
     console := [];
     timers := no_timers;
     hooks := [];
     predictionQueries := [];
     detailsQueries := [];
     promises := [];
     unhandled := [] |}.

(* ===================================================================== *)
(** * Assignments *)
(* ===================================================================== *)

Definition set_predictions (v : list Prediction) (h : Hook) : Hook :=
  {| apiKey := apiKey h; debounceTime := debounceTime h;
     predictionOptions := predictionOptions h; libraries := libraries h;
     language := language h; predictions := v; loading := loading h;
     isGoogleMapsApiLoaded := isGoogleMapsApiLoaded h;
     addressInfo := addressInfo h; timeout := timeout h;
     mounted := mounted h; awaiting := awaiting h |}.

Definition set_loading (v : bool) (h : Hook) : Hook :=
  {| apiKey := apiKey h; debounceTime := debounceTime h;
     predictionOptions := predictionOptions h; libraries := libraries h;
     language := language h; predictions := predictions h; loading := v;
     isGoogleMapsApiLoaded := isGoogleMapsApiLoaded h;
     addressInfo := addressInfo h; timeout := timeout h;
     mounted := mounted h; awaiting := awaiting h |}.

Definition set_isGoogleMapsApiLoaded (v : bool) (h : Hook) : Hook :=
  {| apiKey := apiKey h; debounceTime := debounceTime h;
     predictionOptions := predictionOptions h; libraries := libraries h;
     language := language h; predictions := predictions h;
     loading := loading h; isGoogleMapsApiLoaded := v;
     addressInfo := addressInfo h; timeout := timeout h;
     mounted := mounted h; awaiting := awaiting h |}.

Definition set_timeout (v : option nat) (h : Hook) : Hook :=
  {| apiKey := apiKey h; debounceTime := debounceTime h;
     predictionOptions := predictionOptions h; libraries := libraries h;
     language := language h; predictions := predictions h;
     loading := loading h; isGoogleMapsApiLoaded := isGoogleMapsApiLoaded h;
     addressInfo := addressInfo h; timeout := v;
     mounted := mounted h; awaiting := awaiting h |}.

Definition set_mounted (v : bool) (h : Hook) : Hook :=
  {| apiKey := apiKey h; debounceTime := debounceTime h;
     predictionOptions := predictionOptions h; libraries := libraries h;
     language := language h; predictions := predictions h;
     loading := loading h; isGoogleMapsApiLoaded := isGoogleMapsApiLoaded h;
     addressInfo := addressInfo h; timeout := timeout h;
     mounted := v; awaiting := awaiting h |}.

Definition set_awaiting (v : option nat) (h : Hook) : Hook :=
  {| apiKey := apiKey h; debounceTime := debounceTime h;
     predictionOptions := predictionOptions h; libraries := libraries h;
     language := language h; predictions := predictions h;
     loading := loading h; isGoogleMapsApiLoaded := isGoogleMapsApiLoaded h;
     addressInfo := addressInfo h; timeout := timeout h;
     mounted := mounted h; awaiting := v |}.

Definition with_googleMapsApiLoaded (v : bool) (p : Process) : Process :=
  {| googleMapsApiLoaded := v; google_maps_places := google_maps_places p;
     document_head := document_head p; console := console p;
     timers := timers p; hooks := hooks p;
     predictionQueries := predictionQueries p;
     detailsQueries := detailsQueries p; promises := promises p;
     unhandled := unhandled p |}.

Definition with_google_maps_places (v : bool) (p : Process) : Process :=
  {| googleMapsApiLoaded := googleMapsApiLoaded p; google_maps_places := v;
     document_head := document_head p; console := console p;
     timers := timers p; hooks := hooks p;
     predictionQueries := predictionQueries p;
     detailsQueries := detailsQueries p; promises := promises p;
     unhandled := unhandled p |}.

Definition with_document_head (v : list Script) (p : Process) : Process :=
  {| googleMapsApiLoaded := googleMapsApiLoaded p;
     google_maps_places := google_maps_places p;
     document_head := v; console := console p;
     timers := timers p; hooks := hooks p;
     predictionQueries := predictionQueries p;
     detailsQueries := detailsQueries p; promises := promises p;
     unhandled := unhandled p |}.

Definition with_console (v : list (string * string)) (p : Process) : Process :=
  {| googleMapsApiLoaded := googleMapsApiLoaded p;
     google_maps_places := google_maps_places p;
     document_head := document_head p; console := v;
     timers := timers p; hooks := hooks p;
     predictionQueries := predictionQueries p;
     detailsQueries := detailsQueries p; promises := promises p;
     unhandled := unhandled p |}.

Definition with_timers (v : Timers (nat * string)) (p : Process) : Process :=
  {| googleMapsApiLoaded := googleMapsApiLoaded p;
     google_maps_places := google_maps_places p;
     document_head := document_head p; console := console p;
     timers := v; hooks := hooks p;
     predictionQueries := predictionQueries p;
     detailsQueries := detailsQueries p; promises := promises p;
     unhandled := unhandled p |}.

Definition with_hooks (v : list Hook) (p : Process) : Process :=
  {| googleMapsApiLoaded := googleMapsApiLoaded p;
     google_maps_places := google_maps_places p;
     document_head := document_head p; console := console p;
     timers := timers p; hooks := v;
     predictionQueries := predictionQueries p;
     detailsQueries := detailsQueries p; promises := promises p;
     unhandled := unhandled p |}.

Definition with_predictionQueries (v : list PredictionQuery) (p : Process)
    : Process :=
  {| googleMapsApiLoaded := googleMapsApiLoaded p;
     google_maps_places := google_maps_places p;
     document_head := document_head p; console := console p;
     timers := timers p; hooks := hooks p;
     predictionQueries := v;
     detailsQueries := detailsQueries p; promises := promises p;
     unhandled := unhandled p |}.

Definition with_detailsQueries (v : list DetailsQuery) (p : Process)
    : Process :=
  {| googleMapsApiLoaded := googleMapsApiLoaded p;
     google_maps_places := google_maps_places p;
     document_head := document_head p; console := console p;
     timers := timers p; hooks := hooks p;
     predictionQueries := predictionQueries p;
     detailsQueries := v; promises := promises p;
     unhandled := unhandled p |}.

Definition with_promises (v : list (Settle (option PlaceResult)))
    (p : Process) : Process :=
  {| googleMapsApiLoaded := googleMapsApiLoaded p;
     google_maps_places := google_maps_places p;
     document_head := document_head p; console := console p;
     timers := timers p; hooks := hooks p;
     predictionQueries := predictionQueries p;
     detailsQueries := detailsQueries p; promises := v;
     unhandled := unhandled p |}.

Definition with_unhandled (v : list string) (p : Process) : Process :=
  {| googleMapsApiLoaded := googleMapsApiLoaded p;
     google_maps_places := google_maps_places p;
     document_head := document_head p; console := console p;
     timers := timers p; hooks := hooks p;
     predictionQueries := predictionQueries p;
     detailsQueries := detailsQueries p; promises := promises p;
     unhandled := v |}.

(** Hook number [i] is changed by [f]; nothing happens when there is no such
    hook. *)
Definition upd_hook (i : nat) (f : Hook → Hook) (p : Process) : Process :=
  with_hooks (alter f i (hooks p)) p.

(** A promise settles once: later calls of [resolve] or [reject] are
    ignored. *)
Definition settle {R : Type} (outcome : Settle R) (now : Settle R) : Settle R :=
  match now with
  | Pending => outcome
  | _ => now
  end.

Definition set_load_promise (v : Settle ()) (s : Script) : Script :=
  {| src := src s; async := async s; defer := defer s;
     load_promise := settle v (load_promise s) |}.

Definition answer_prediction (q : PredictionQuery) : PredictionQuery :=
  {| pq_hook := pq_hook q; pq_request := pq_request q; pq_answered := true |}.

Definition answer_details (q : DetailsQuery) : DetailsQuery :=
  {| dq_promise := dq_promise q; dq_placeId := dq_placeId q;
     dq_answered := true |}.

(* ===================================================================== *)
(** * The script loader *)
(* ===================================================================== *)

(** [loadGoogleMapsApi(apiKey, libraries, language)]: the promise executor
    runs at once.
<<
      if (googleMapsApiLoaded) { resolve(); return; }
      const script = document.createElement('script');
      script.src = `...`; script.async = true; script.defer = true;
      script.onload = ...; script.onerror = ...;
      document.head.appendChild(script);
>> *)
Definition loadGoogleMapsApi (apiKey : string) (libraries : list string)
    (language : string) (p : Process) : LoadPromise * Process :=
  if googleMapsApiLoaded p then (AlreadyResolved, p)
  else
    let script :=
      {| src := script_src apiKey libraries language;
         async := true; defer := true; load_promise := Pending |} in
    (OfScript (length (document_head p)),
     with_document_head (document_head p ++ [script]) p).

(** The rest of the mounted hook of a component that was waiting on script
    [k], once that promise is settled: [isGoogleMapsApiLoaded.value = true]
    after a fulfilment, the [catch] block after a rejection. *)
Definition resume (k : nat) (fulfilled : bool) (h : Hook) : Hook :=
  if decide (awaiting h = Some k)
  then set_awaiting None
         (if fulfilled then set_isGoogleMapsApiLoaded true h else h)
  else h.

Definition load_failed : string := "Failed to load Google Maps API".

(** [console.error('Error loading Google Maps API:', error)], once per
    mounted hook that was waiting on script [k]. *)
Definition caught (k : nat) (hs : list Hook) : list (string * string) :=
  flat_map (λ h, if decide (awaiting h = Some k)
                 then [("Error loading Google Maps API:"%string, load_failed)]
                 else []) hs.

(** [script.onload = () => { googleMapsApiLoaded = true; resolve(); }] *)
Definition script_onload (k : nat) (p : Process) : Process :=
  let p1 := with_googleMapsApiLoaded true p in
  let p2 := with_document_head
              (alter (set_load_promise (Resolved ())) k (document_head p1)) p1 in
  with_hooks (resume k true <$> hooks p2) p2.

(** [script.onerror = () => reject(new Error('Failed to load Google Maps API'))] *)
Definition script_onerror (k : nat) (p : Process) : Process :=
  let p1 := with_document_head
              (alter (set_load_promise (Rejected load_failed)) k
                 (document_head p)) p in
  let p2 := with_console (console p1 ++ caught k (hooks p1)) p1 in
  with_hooks (resume k false <$> hooks p2) p2.

(* ===================================================================== *)
(** * The hook *)
(* ===================================================================== *)

(** [useGooglePlacesAutocomplete(apiKey, options)] up to its [return]: the
    refs are created, the four constants are read off [options]; the new
    hook's number is returned. *)
Definition useGooglePlacesAutocomplete (key : string)
    (options : option Options.t) (p : Process) : nat * Process :=
  let options := object_or options Options.empty in
  let h :=
    {| apiKey := key;
       debounceTime := number_or (Options.debounceTime options) 300;
       predictionOptions := object_or (Options.predictionOptions options) ∅;
       libraries := object_or (Options.libraries options) ["places"%string];
       language := string_or (Options.language options) "en";
       predictions := [];
       loading := false;
       isGoogleMapsApiLoaded := false;
       addressInfo := None;
       timeout := None;
       mounted := false;
       awaiting := None |} in
  (length (hooks p), with_hooks (hooks p ++ [h]) p).

(** The callback given to [onMounted].
<<
      if (typeof google !== 'undefined' && google.maps && google.maps.places) {
        isGoogleMapsApiLoaded.value = true;
      } else {
        try { await loadGoogleMapsApi(apiKey, libraries, language);
              isGoogleMapsApiLoaded.value = true; }
        catch (error) { console.error(...); }
      }
>> *)
Definition onMounted (i : nat) (p : Process) : Process :=
  match hooks p !! i with
  | None => p
  | Some h =>
      if google_maps_places p
      then upd_hook i (set_isGoogleMapsApiLoaded true) p
      else
        match loadGoogleMapsApi (apiKey h) (libraries h) (language h) p with
        | (AlreadyResolved, p') => upd_hook i (set_isGoogleMapsApiLoaded true) p'
        | (OfScript k, p') => upd_hook i (set_awaiting (Some k)) p'
        end
  end.

(** The function handed to [debounce]: an invocation once the quiet period
    has passed.
<<
      if (!isGoogleMapsApiLoaded.value || !input) return;
      loading.value = true;
      const autocompleteService = new google.maps.places.AutocompleteService();
      autocompleteService.getPlacePredictions({ input, ...predictionOptions }, cb);
>>
    Constructing the service throws when [google.maps.places] is not there;
    the rejection of the async function is handled by nobody. *)
Definition fetchPredictions_func (i : nat) (input : string) (p : Process)
    : Process :=
  match hooks p !! i with
  | None => p
  | Some h =>
      if negb (isGoogleMapsApiLoaded h) || bool_decide (input = ""%string)
      then p
      else
        let p1 := upd_hook i (set_loading true) p in
        if google_maps_places p1
        then
          with_predictionQueries
            (predictionQueries p1 ++
               [{| pq_hook := i;
                   pq_request := prediction_request input (predictionOptions h);
                   pq_answered := false |}]) p1
        else with_unhandled (unhandled p1 ++ ["TypeError"%string]) p1
  end.

(** The callback of query [q], called by the service with its results.
<<
      (results) => { predictions.value = results ?? []; loading.value = false; }
>> *)
Definition predictions_callback (q : nat) (results : option (list Prediction))
    (p : Process) : Process :=
  match predictionQueries p !! q with
  | None => p
  | Some query =>
      let p1 := with_predictionQueries
                  (alter answer_prediction q (predictionQueries p)) p in
      let p2 := upd_hook (pq_hook query)
                  (set_predictions (default [] results)) p1 in
      upd_hook (pq_hook query) (set_loading false) p2
  end.

(** [fetchPredictions(input)]: the debounced closure is called. *)
Definition fetchPredictions (i : nat) (input : string) (p : Process) : Process :=
  match hooks p !! i with
  | None => p
  | Some h =>
      let '(to, tm) :=
        debounced (debounceTime h) (timeout h) (i, input) (timers p) in
      upd_hook i (set_timeout to) (with_timers tm p)
  end.

(** [d] milliseconds pass: the callbacks that fall due run, in order. *)
Definition idle (d : nat) (p : Process) : Process :=
  let '(fired, tm) := elapse d (timers p) in
  foldl (λ p c, fetchPredictions_func c.1 c.2 p) (with_timers tm p) fired.

Definition not_found : string := "Place details not found".

(** [fetchPlaceDetails(placeId)]: the number of the promise it returns, and
    the process after the call.
<<
      if (!isGoogleMapsApiLoaded.value) return;
      const placesService = new google.maps.places.PlacesService(...);
      return new Promise((resolve, reject) => {
        placesService.getDetails({ placeId }, (place, status) => ...); });
>> *)
Definition fetchPlaceDetails (i : nat) (placeId : string) (p : Process)
    : nat * Process :=
  let n := length (promises p) in
  match hooks p !! i with
  | None => (n, p)
  | Some h =>
      if negb (isGoogleMapsApiLoaded h)
      then (n, with_promises (promises p ++ [Resolved None]) p)
      else if google_maps_places p
      then
        (n, with_detailsQueries
              (detailsQueries p ++
                 [{| dq_promise := n; dq_placeId := placeId;
                     dq_answered := false |}])
              (with_promises (promises p ++ [Pending]) p))
      else (n, with_promises (promises p ++ [Rejected "TypeError"]) p)
  end.

(** What the callback of [getDetails] does with the service's answer.
<<
      if (status === google.maps.places.PlacesServiceStatus.OK && place) {
        resolve(place);
      } else {
        reject(new Error('Place details not found'));
      }
>> *)
Definition details_outcome (place : option PlaceResult)
    (status : PlacesServiceStatus) : Settle (option PlaceResult) :=
  match status, place with
  | OK, Some pl => Resolved (Some pl)
  | _, _ => Rejected not_found
  end.

(** The callback of lookup [q], called by the service.  Its test reads
    [google.maps.places.PlacesServiceStatus.OK] when it runs: with the
    namespace gone by then that throws inside the callback, nobody catches
    it, and the promise stays as it is. *)
Definition details_callback (q : nat) (place : option PlaceResult)
    (status : PlacesServiceStatus) (p : Process) : Process :=
  match detailsQueries p !! q with
  | None => p
  | Some query =>
      let p1 :=
        with_detailsQueries (alter answer_details q (detailsQueries p)) p in
      if google_maps_places p
      then
        with_promises
          (alter (settle (details_outcome place status)) (dq_promise query)
             (promises p)) p1
      else with_unhandled (unhandled p ++ ["TypeError"%string]) p1
  end.

(** [resetPredictions()]: [predictions.value = []]. *)
Definition resetPredictions (i : nat) (p : Process) : Process :=
  upd_hook i (set_predictions []) p.

(* ===================================================================== *)
(** * The process as a transition system *)
(* ===================================================================== *)

(** What can happen to the process: calls made by the component that owns a
    hook, and tasks started by the host (timers, script events, the
    service's callbacks, the page's own scripts defining or removing the
    [google] namespace). *)
Inductive Event :=
| Use (key : string) (options : option Options.t)
| Mount (i : nat)
| Search (i : nat) (input : string)
| Elapse (d : nat)
| PredictionsAnswer (q : nat) (results : option (list Prediction))
| Details (i : nat) (placeId : string)
| DetailsAnswer (q : nat) (place : option PlaceResult)
    (status : PlacesServiceStatus)
| Clear (i : nat)
| ScriptLoad (k : nat)
| ScriptError (k : nat)
| Namespace (present : bool).

Definition is_pending {R : Type} (s : Settle R) : bool :=
  match s with
  | Pending => true
  | _ => false
  end.

(** One event.  The host's own rules are the guards: a component is mounted
    once, a script element fires one of [load] and [error] and only once, the
    service calls a callback once. *)
Definition step (e : Event) (p : Process) : Process :=
  match e with
  | Use key options => (useGooglePlacesAutocomplete key options p).2
  | Mount i =>
      match hooks p !! i with
      | Some h =>
          if mounted h then p else onMounted i (upd_hook i (set_mounted true) p)
      | None => p
      end
  | Search i input => fetchPredictions i input p
  | Elapse d => idle d p
  | PredictionsAnswer q results =>
      match predictionQueries p !! q with
      | Some query =>
          if pq_answered query then p else predictions_callback q results p
      | None => p
      end
  | Details i placeId => (fetchPlaceDetails i placeId p).2
  | DetailsAnswer q place status =>
      match detailsQueries p !! q with
      | Some query =>
          if dq_answered query then p else details_callback q place status p
      | None => p
      end
  | Clear i => resetPredictions i p
  | ScriptLoad k =>
      match document_head p !! k with
      | Some s => if is_pending (load_promise s) then script_onload k p else p
      | None => p
      end
  | ScriptError k =>
      match document_head p !! k with
      | Some s => if is_pending (load_promise s) then script_onerror k p else p
      | None => p
      end
  | Namespace present => with_google_maps_places present p
  end.

Definition run (tr : list Event) (p : Process) : Process :=
  foldl (λ p e, step e p) p tr.

(* ===================================================================== *)
(** * Histories and invariants *)
(* ===================================================================== *)

(** The states a run passes through, one per event. *)
Fixpoint trajectory (tr : list Event) (p : Process) : list Process :=
  match tr with
  | [] => []
  | e :: tr' => step e p :: trajectory tr' (step e p)
  end.

(** [isGoogleMapsApiLoaded.value] of hook [i], if there is such a hook. *)
Definition hook_flag (i : nat) (p : Process) : option bool :=
  isGoogleMapsApiLoaded <$> hooks p !! i.

(** Some query handed to the service came from hook [i]. *)
Definition owned (i : nat) (qs : list PredictionQuery) : Prop :=
  ∃ q, q ∈ qs ∧ pq_hook q = i.

(** What holds of every hook of a process that started from [start]: before
    its component is mounted, and while its mounted callback waits on a
    script, its API is not loaded; and as long as its API is not loaded it
    has no predictions, is not loading and has sent no query. *)
Definition hook_inv (qs : list PredictionQuery) (i : nat) (h : Hook) : Prop :=
  (mounted h = false → isGoogleMapsApiLoaded h = false ∧ awaiting h = None) ∧
  (is_Some (awaiting h) → isGoogleMapsApiLoaded h = false) ∧
  (isGoogleMapsApiLoaded h = false →
   predictions h = [] ∧ loading h = false ∧ ¬ owned i qs).

Definition inv (p : Process) : Prop :=
  (∀ i h, hooks p !! i = Some h → hook_inv (predictionQueries p) i h) ∧
  (∀ q, q ∈ predictionQueries p → pq_hook q < length (hooks p)).

(** A hook whose initialization has failed for good: mounted, waiting on
    nothing, API not loaded; with nothing to show and no query sent. *)
Definition failed (h : Hook) : Prop :=
  mounted h = true ∧ awaiting h = None ∧ isGoogleMapsApiLoaded h = false ∧
  predictions h = [] ∧ loading h = false.

Definition inert (i : nat) (p : Process) : Prop :=
  ∃ h, hooks p !! i = Some h ∧ failed h ∧ ¬ owned i (predictionQueries p).

(* ===================================================================== *)
(** * Some pages *)
(* ===================================================================== *)

(** A page on which the [google] namespace is already there when the
    component is mounted, and the hook of that component. *)
Definition ready : Process :=
  run [Use "KEY" None; Namespace true; Mount 0] start.

Definition ready_hook : Hook :=
  {| apiKey := "KEY"; debounceTime := 300; predictionOptions := ∅;
     libraries := ["places"%string]; language := "en";
     predictions := []; loading := false; isGoogleMapsApiLoaded := true;
     addressInfo := None; timeout := None; mounted := true;
     awaiting := None |}.

(** A hook that holds two predictions and is loading. *)
Definition busy : Process :=
  run [Search 0 "a"; Elapse 300;
       PredictionsAnswer 0
         (Some [{| description := "A St"; place_id := "a" |};
                {| description := "B Ave"; place_id := "b" |}]);
       Search 0 "ab"; Elapse 300] ready.

Definition busy_hook : Hook :=
  set_timeout (Some 2)
    (set_loading true
       (set_predictions
          [{| description := "A St"; place_id := "a" |};
           {| description := "B Ave"; place_id := "b" |}] ready_hook)).

(** A hook configured with [predictionOptions: { input: 'Paris' }]. *)
Definition overridden : Process :=
  run [Use "KEY"
         (Some {| Options.debounceTime := None;
                  Options.predictionOptions :=
                    Some {[ "input"%string := JStr "Paris" ]};
                  Options.libraries := None;
                  Options.language := None |});
       Namespace true; Mount 0] start.

Definition overridden_hook : Hook :=
  {| apiKey := "KEY"; debounceTime := 300;
     predictionOptions := {[ "input"%string := JStr "Paris" ]};
     libraries := ["places"%string]; language := "en";
     predictions := []; loading := false; isGoogleMapsApiLoaded := true;
     addressInfo := None; timeout := None; mounted := true;
     awaiting := None |}.

(** A page without the [google] namespace on which one component has been
    mounted: its script is in the document, and no event has fired yet. *)
Definition loading_page : Process := run [Use "K1" None; Mount 0] start.

(** A page where the first component's script fails and the second one's
    loads; a third component is mounted afterwards. *)
Definition mixed_page : list Event :=
  [Use "K1" None; Mount 0; Use "K2" None; Mount 1;
   ScriptError 0; ScriptLoad 1; Use "K3" None; Mount 2;
   Search 1 "a"; Elapse 300; Clear 1; Namespace false].

(* ===================================================================== *)
(** * Further notions for the debounced function and the hooks *)
(* ===================================================================== *)

(** The arguments the debounced function was called with, in order. *)
Definition invoked {A : Type} (l : list (@Debounce.Action A)) : list A :=
  omap (λ a, match a with
             | Debounce.Invoke x => Some x
             | Debounce.Idle _ => None
             end) l.

(** What one event of the process can make of hook [i], when it touches it
    at all: [hook_change p i e h h'] lists, event by event, the writes the
    closures of the hook make. *)
Inductive hook_change (p : Process) (i : nat) (h : Hook)
    : Event → Hook → Prop :=
| change_mount_loaded :
    mounted h = false →
    google_maps_places p = true ∨ googleMapsApiLoaded p = true →
    hook_change p i h (Mount i)
      (set_isGoogleMapsApiLoaded true (set_mounted true h))
| change_mount_waiting :
    mounted h = false →
    google_maps_places p = false →
    googleMapsApiLoaded p = false →
    hook_change p i h (Mount i)
      (set_awaiting (Some (length (document_head p))) (set_mounted true h))
| change_search input to :
    hook_change p i h (Search i input) (set_timeout to h)
| change_elapse d :
    isGoogleMapsApiLoaded h = true →
    hook_change p i h (Elapse d) (set_loading true h)
| change_answer q results query :
    predictionQueries p !! q = Some query →
    pq_hook query = i →
    pq_answered query = false →
    hook_change p i h (PredictionsAnswer q results)
      (set_loading false (set_predictions (default [] results) h))
| change_clear :
    hook_change p i h (Clear i) (set_predictions [] h)
| change_load k s :
    document_head p !! k = Some s →
    load_promise s = Pending →
    awaiting h = Some k →
    hook_change p i h (ScriptLoad k)
      (set_awaiting None (set_isGoogleMapsApiLoaded true h))
| change_error k s :
    document_head p !! k = Some s →
    load_promise s = Pending →
    awaiting h = Some k →
    hook_change p i h (ScriptError k) (set_awaiting None h).

(** Is the event an answer of the service to a prediction query? *)
Definition is_answer (e : Event) : bool :=
  match e with
  | PredictionsAnswer _ _ => true
  | _ => false
  end.

(** The callbacks on the timer table that will invoke the search function of
    hook [i]. *)
Definition scheduled (i : nat) (p : Process) : list (Timer (nat * string)) :=
  filter (λ t, (payload t).1 = i) (queue (timers p)).

(** The queries of hook [i] the service has received. *)
Definition sent (i : nat) (p : Process) : list PredictionQuery :=
  filter (λ q, pq_hook q = i) (predictionQueries p).

(** What holds of the timer table of a process that started from [start]:
    handles are positive, below the next one and all different; every
    callback belongs to a hook that exists, and it is the one the [timeout]
    variable of that hook's debounced closure holds. *)
Definition timers_inv (p : Process) : Prop :=
  0 < fresh (timers p) ∧
  (∀ t, t ∈ queue (timers p) →
        0 < handle t < fresh (timers p) ∧ (payload t).1 < length (hooks p)) ∧
  NoDup (handle <$> queue (timers p)) ∧
  (∀ i h t, hooks p !! i = Some h → t ∈ queue (timers p) →
            (payload t).1 = i → timeout h = Some (handle t)).

(** A hook with two queries at the service, none answered: the one for "a"
    was sent first, the one for "ab" second. *)
Definition two_outstanding : Process :=
  run [Search 0 "a"; Elapse 300; Search 0 "ab"; Elapse 300] ready.

(** Is the event the [load] or the [error] event of script [k]? *)
Definition fires (k : nat) (e : Event) : bool :=
  match e with
  | ScriptLoad k' | ScriptError k' => k' =? k
  | _ => false
  end.

(* ===================================================================== *)
(** * The component [GooglePlacesAutocomplete] *)
(* ===================================================================== *)

(** The props as the parent passes them; a prop left out is [None]. *)
Module Props.
Record t := mk {
  apiKey : string;
  predictionOptions : option JsObject;
  placeholder : option string;
  language : option string
}.
End Props.

(** The default of the prop [predictionOptions]:
    [{ types: ['address'], componentRestrictions: { country: 'br' } }]. *)
Definition default_predictionOptions : JsObject :=
  <["types"%string := JArr [JStr "address"]]>
    (<["componentRestrictions"%string := JObj [("country"%string, JStr "br")]]>
       ∅).

(** What the component has emitted: [emit('input', value)] and
    [emit('place-selected', dataAddress)], where [None] is [undefined]. *)
Inductive Emitted :=
| emit_input (value : string)
| emit_place_selected (dataAddress : option PlaceResult).

(** One instance of the component: the hook its [setup] created, the ref
    [query], what it has emitted so far, and the errors thrown out of
    [selectPlace]. *)
Module Component.
Record t := mk {
  hook : nat;
  query : string;
  emitted : list Emitted;
  thrown : list string
}.
End Component.

(** A page: the process, the components on it, and the calls of
    [selectPlace] suspended at their [await], each as the promise awaited
    and the component that waits. *)
Record Page := {
  process : Process;
  components : list Component.t;
  reactions : list (nat * nat)
}.

Definition blank : Page :=
  {| process := start; components := []; reactions := [] |}.

Definition with_process (v : Process) (pg : Page) : Page :=
  {| process := v; components := components pg; reactions := reactions pg |}.

Definition with_reactions (v : list (nat * nat)) (pg : Page) : Page :=
  {| process := process pg; components := components pg; reactions := v |}.

Definition upd_component (c : nat) (f : Component.t → Component.t)
    (pg : Page) : Page :=
  {| process := process pg; components := alter f c (components pg);
     reactions := reactions pg |}.

Definition set_query (v : string) (comp : Component.t) : Component.t :=
  {| Component.hook := Component.hook comp; Component.query := v;
     Component.emitted := Component.emitted comp;
     Component.thrown := Component.thrown comp |}.

Definition emit (v : Emitted) (comp : Component.t) : Component.t :=
  {| Component.hook := Component.hook comp;
     Component.query := Component.query comp;
     Component.emitted := Component.emitted comp ++ [v];
     Component.thrown := Component.thrown comp |}.

Definition throw (message : string) (comp : Component.t) : Component.t :=
  {| Component.hook := Component.hook comp;
     Component.query := Component.query comp;
     Component.emitted := Component.emitted comp;
     Component.thrown := Component.thrown comp ++ [message] |}.

(** [setup(props, { emit })]: a prop left out takes its default; the hook is
    created with [debounceTime: 500], the prop [predictionOptions] and the
    prop [language]; [query] starts empty.  The number of the new component
    is returned. *)
Definition setup (props : Props.t) (pg : Page) : nat * Page :=
  let options :=
    {| Options.debounceTime := Some 500%Z;
       Options.predictionOptions :=
         Some (object_or (Props.predictionOptions props)
                 default_predictionOptions);
       Options.libraries := None;
       Options.language := Some (object_or (Props.language props) "en"%string) |} in
  let '(i, p) :=
    useGooglePlacesAutocomplete (Props.apiKey props) (Some options)
      (process pg) in
  (length (components pg),
   {| process := p;
      components :=
        components pg ++
          [{| Component.hook := i; Component.query := "";
              Component.emitted := []; Component.thrown := [] |}];
      reactions := reactions pg |}).

(** [handleInput]:
<<
      fetchPredictions(query.value);
      emit('input', query.value);
>> *)
Definition handleInput (c : nat) (pg : Page) : Page :=
  match components pg !! c with
  | None => pg
  | Some comp =>
      upd_component c (emit (emit_input (Component.query comp)))
        (with_process
           (fetchPredictions (Component.hook comp) (Component.query comp)
              (process pg)) pg)
  end.

(** [selectPlace(prediction)] up to its [await]:
<<
      const { place_id, description } = prediction;
      query.value = description;
      const dataAddress = await fetchPlaceDetails(place_id);
>> *)
Definition selectPlace (c : nat) (prediction : Prediction) (pg : Page) : Page :=
  match components pg !! c with
  | None => pg
  | Some comp =>
      let pg1 := upd_component c (set_query (description prediction)) pg in
      let '(n, p) :=
        fetchPlaceDetails (Component.hook comp) (place_id prediction)
          (process pg1) in
      with_reactions (reactions pg1 ++ [(n, c)]) (with_process p pg1)
  end.

(** The rest of [selectPlace], run when the awaited promise [n] is settled:
<<
      emit('place-selected', dataAddress);
      resetPredictions();
>>
    after a fulfilment; after a rejection the error is thrown out of
    [selectPlace] and neither statement runs. *)
Definition resume_selectPlace (n c : nat) (pg : Page) : Page :=
  match components pg !! c, promises (process pg) !! n with
  | Some comp, Some (Resolved dataAddress) =>
      with_process (resetPredictions (Component.hook comp) (process pg))
        (upd_component c (emit (emit_place_selected dataAddress)) pg)
  | Some comp, Some (Rejected message) => upd_component c (throw message) pg
  | _, _ => pg
  end.

Definition still_pending (p : Process) (n : nat) : bool :=
  match promises p !! n with
  | Some Pending => true
  | _ => false
  end.

(** The end of a task: every suspended [selectPlace] whose promise is
    settled by now runs to its end. *)
Definition drain (pg : Page) : Page :=
  let rs := reactions pg in
  with_reactions (filter (λ r, still_pending (process pg) r.1 = true) rs)
    (foldl (λ pg r, resume_selectPlace r.1 r.2 pg) pg rs).

(** What happens on a page: a component is created or mounted; its field
    fires [input], holding [text], outside an input-method composition (the
    listener of [v-model] writes [query], then [handleInput] runs; the
    [input] that [v-model] itself dispatches when a composition ends is such
    an event); the field fires [input] during a composition (the listener of
    [v-model] leaves [query] alone, [handleInput] runs all the same); the
    user clicks the [k]-th suggestion of the list; or the host runs a task
    of the process. *)
Inductive Interaction :=
| Render (props : Props.t)
| Mounted (c : nat)
| Typed (c : nat) (text : string)
| Clicked (c : nat) (k : nat)
| Host (e : Event)
| Composing (c : nat).

(** The task itself. *)
Definition interact (a : Interaction) (pg : Page) : Page :=
  match a with
  | Render props => (setup props pg).2
  | Mounted c =>
      match components pg !! c with
      | Some comp => with_process (step (Mount (Component.hook comp)) (process pg)) pg
      | None => pg
      end
  | Typed c text => handleInput c (upd_component c (set_query text) pg)
  | Clicked c k =>
      match components pg !! c with
      | Some comp =>
          match hooks (process pg) !! Component.hook comp with
          | Some h =>
              match predictions h !! k with
              | Some prediction => selectPlace c prediction pg
              | None => pg
              end
          | None => pg
          end
      | None => pg
      end
  | Host e => with_process (step e (process pg)) pg
  | Composing c => handleInput c pg
  end.

(** One task of the page, with the continuations it releases. *)
Definition page_step (a : Interaction) (pg : Page) : Page :=
  drain (interact a pg).

Definition page_run (l : list Interaction) (pg : Page) : Page :=
  foldl (λ pg a, page_step a pg) pg l.

(** A parent that passes only the key, and the page of such a component
    once the user has typed "a", the debounce time has passed and the
    service has suggested one place. *)
Definition only_key : Props.t :=
  {| Props.apiKey := "KEY"; Props.predictionOptions := None;
     Props.placeholder := None; Props.language := None |}.

Definition a_street : Prediction :=
  {| description := "A St"; place_id := "a" |}.

Definition suggesting : list Interaction :=
  [Render only_key; Host (Namespace true); Mounted 0; Typed 0 "a";
   Host (Elapse 500); Host (PredictionsAnswer 0 (Some [a_street]))].

Definition suggesting_hook : Hook :=
  {| apiKey := "KEY"; debounceTime := 500;
     predictionOptions := default_predictionOptions;
     libraries := ["places"%string]; language := "en";
     predictions := [a_street]; loading := false;
     isGoogleMapsApiLoaded := true; addressInfo := None;
     timeout := Some 1; mounted := true; awaiting := None |}.

Definition suggesting_component : Component.t :=
  {| Component.hook := 0; Component.query := "a";
     Component.emitted := [emit_input "a"]; Component.thrown := [] |}.

(** The user goes on typing while the suggestion is shown: a search for "ab"
    is scheduled. *)
Definition retyping : list Interaction := suggesting ++ [Typed 0 "ab"].

(** The values of the [input] events among what a component emitted. *)
Definition inputs (es : list Emitted) : list string :=
  omap (λ e, match e with
             | emit_input v => Some v
             | emit_place_selected _ => None
             end) es.

(** The [input] events of the field of component [c] among some
    interactions, each with what the listener of [v-model] writes to
    [query] before [handleInput] runs: the text of the field, or nothing
    during a composition. *)
Definition input_events (c : nat) (l : list Interaction)
    : list (option string) :=
  omap (λ a, match a with
             | Typed c' text =>
                 if decide (c' = c) then Some (Some text) else None
             | Composing c' => if decide (c' = c) then Some None else None
             | _ => None
             end) l.

(** [query] after such events, when it was [q] before them. *)
Definition written (q : string) (evs : list (option string)) : string :=
  foldl (λ q ev, default q ev) q evs.

(** What [handleInput] reads from [query] at each of such events: the text
    just written or, during a composition, the value [query] had before. *)
Fixpoint heard (q : string) (evs : list (option string)) : list string :=
  match evs with
  | [] => []
  | ev :: evs' => default q ev :: heard (default q ev) evs'
  end.

(** The interaction is a click on a suggestion of component [c]. *)
Definition chooses (c : nat) (a : Interaction) : bool :=
  match a with
  | Clicked c' _ => bool_decide (c' = c)
  | _ => false
  end.

(** The payloads of the [place-selected] events among what a component
    emitted; [None] is [undefined]. *)
Definition selections (es : list Emitted) : list (option PlaceResult) :=
  omap (λ e, match e with
             | emit_place_selected v => Some v
             | emit_input _ => None
             end) es.

(** Every [place-selected] event of every component carried a place. *)
Definition places_only (comps : list Component.t) : Prop :=
  Forall (λ comp, Forall is_Some (selections (Component.emitted comp))) comps.

(** The promises the suspended calls [rs] of [selectPlace] wait for exist
    and none of them is fulfilled with [undefined]. *)
Definition awaited (p : Process) (rs : list (nat * nat)) : Prop :=
  Forall (λ r, ∃ s, promises p !! r.1 = Some s ∧ s ≠ Resolved None) rs.

(** What holds of a page whose components were driven through their
    template only. *)
Definition page_inv (pg : Page) : Prop :=
  inv (process pg) ∧
  places_only (components pg) ∧
  awaited (process pg) (reactions pg).

(* ===================================================================== *)
(** * Facts about the debounced function *)
(* ===================================================================== *)

(** A delay that fits is waited for as it is. *)
Lemma timer_delay_fits (delay : Z) :
  (delay < 2 ^ 31)%Z → timer_delay delay = Z.to_nat delay.
Proof.
  intros Hw. unfold timer_delay.
  by rewrite (proj2 (Z.ltb_lt _ _)) by exact Hw.
Qed.

Section debounce_facts.
Context {A St : Type} (func : A → St → St) (wait : Z).

Local Abbreviation act := (Debounce.act func wait).
Local Abbreviation run := (Debounce.run func wait).
Local Abbreviation reaching := (Debounce.reaching wait).
Local Abbreviation state := (@Debounce.state A St).

Lemma debounce_wf (s0 : St) : Debounce.wf (@Debounce.debounce A St s0).
Proof. split; [simpl; lia | by left]. Qed.

Lemma act_Invoke x (s : state) :
  Debounce.wf s →
  act (Debounce.Invoke x) s =
    Debounce.mk (Some (fresh (Debounce.timers s)))
      {| clock := clock (Debounce.timers s);
         fresh := S (fresh (Debounce.timers s));
         queue := [mkTimer (fresh (Debounce.timers s))
                     (clock (Debounce.timers s) + timer_delay wait) x] |}
      (Debounce.target s).
Proof.
  intros [Hf Hq]. destruct s as [to [c f q] tg]; simpl in *.
  unfold debounced, setTimeout, clearTimeout; simpl.
  destruct Hq as [-> | (u & -> & -> & Hu)].
  - destruct to as [h|]; [destruct (truthy_handle h)|]; reflexivity.
  - unfold truthy_handle. destruct (Nat.eqb_spec (handle u) 0); [done|].
    simpl. rewrite filter_cons_False; [reflexivity | tauto].
Qed.

Lemma act_Idle_pending d h t x (s : state) :
  queue (Debounce.timers s) = [mkTimer h t x] →
  act (Debounce.Idle d) s =
    if t <=? clock (Debounce.timers s) + d
    then Debounce.mk (Debounce.timeout s)
           {| clock := clock (Debounce.timers s) + d;
              fresh := fresh (Debounce.timers s); queue := [] |}
           (func x (Debounce.target s))
    else Debounce.mk (Debounce.timeout s)
           {| clock := clock (Debounce.timers s) + d;
              fresh := fresh (Debounce.timers s);
              queue := [mkTimer h t x] |}
           (Debounce.target s).
Proof.
  intros Hq. destruct s as [to [c f q] tg]; simpl in *; subst q.
  unfold elapse; simpl. by destruct (t <=? c + d).
Qed.

Lemma act_Idle_empty d (s : state) :
  queue (Debounce.timers s) = [] →
  act (Debounce.Idle d) s =
    Debounce.mk (Debounce.timeout s)
      {| clock := clock (Debounce.timers s) + d;
         fresh := fresh (Debounce.timers s); queue := [] |}
      (Debounce.target s).
Proof.
  intros Hq. destruct s as [to [c f q] tg]; simpl in *; by subst q.
Qed.

Lemma wf_act a (s : state) : Debounce.wf s → Debounce.wf (act a s).
Proof.
  intros Hwf. destruct a as [x|d].
  - rewrite act_Invoke by done. split; simpl; [lia|].
    right. eexists; split; [done|]. simpl. destruct Hwf. split; [done|lia].
  - destruct Hwf as [Hf [Hq | (u & Hq & Hto & Hu)]].
    + rewrite act_Idle_empty by done. split; [done | by left].
    + destruct u as [h t x].
      rewrite (act_Idle_pending d h t x) by done.
      destruct (t <=? _); split; simpl; try done; [by left|].
      right. by exists (mkTimer h t x).
Qed.

Lemma wf_run l (s : state) : Debounce.wf s → Debounce.wf (run l s).
Proof.
  revert s. induction l as [|a l IH]; intros s Hs; [done|].
  apply IH, wf_act, Hs.
Qed.

Lemma debounce_run_cons a l (s : state) : run (a :: l) s = run l (act a s).
Proof. reflexivity. Qed.

Lemma act_Invoke_Idle x d (s : state) :
  Debounce.wf s →
  Debounce.target (act (Debounce.Idle d) (act (Debounce.Invoke x) s)) =
    foldl (λ s x, func x s) (Debounce.target s)
      (if timer_delay wait <=? d then [x] else []).
Proof.
  intros Hs. rewrite act_Invoke by done.
  erewrite act_Idle_pending by (simpl; reflexivity). simpl.
  destruct (Nat.leb_spec (timer_delay wait) d) as [H|H].
  - by rewrite (proj2 (Nat.leb_le _ _)) by lia.
  - by rewrite (proj2 (Nat.leb_gt _ _)) by lia.
Qed.

(** The law of the debounced function: of a train of calls, exactly those
    followed by a quiet period reach [func], in order. *)
Lemma run_calls a0 rest D (s : state) :
  (wait < 2 ^ 31)%Z →
  Debounce.wf s →
  Debounce.target (run (Debounce.calls a0 rest ++ [Debounce.Idle D]) s) =
    foldl (λ s x, func x s) (Debounce.target s) (reaching a0 rest D).
Proof.
  intros Hw. revert a0 s. induction rest as [|[d a] rest IH]; intros a0 s Hs.
  - change (reaching a0 [] D) with (if Z.to_nat wait <=? D then [a0] else []).
    rewrite <- timer_delay_fits by done. apply act_Invoke_Idle, Hs.
  - change (Debounce.calls a0 ((d, a) :: rest) ++ [Debounce.Idle D])
      with (Debounce.Invoke a0 :: Debounce.Idle d ::
              (Debounce.calls a rest ++ [Debounce.Idle D])).
    rewrite !debounce_run_cons, IH by (by do 2 apply wf_act).
    rewrite act_Invoke_Idle, timer_delay_fits by done.
    change (reaching a0 ((d, a) :: rest) D)
      with ((if Z.to_nat wait <=? d then [a0] else []) ++ reaching a rest D).
    by rewrite foldl_app.
Qed.

Lemma reaching_hurried (a0 : A) rest D :
  Forall (λ c, (Z.of_nat c.1 < wait)%Z) rest →
  reaching a0 rest D =
    if decide (wait ≤ Z.of_nat D)%Z then [Debounce.last_args a0 rest] else [].
Proof.
  revert a0. induction rest as [|[d a] rest IH]; intros a0 Hall; simpl.
  - destruct (Nat.leb_spec (Z.to_nat wait) D); case_decide; (done || lia).
  - inversion_clear Hall as [|? ? Hd Hrest]. simpl in Hd.
    rewrite (proj2 (Nat.leb_gt _ _)) by lia. by apply IH.
Qed.

Lemma reaching_spaced (a0 : A) rest D :
  Forall (λ c, (wait ≤ Z.of_nat c.1)%Z) rest →
  (wait ≤ Z.of_nat D)%Z →
  reaching a0 rest D = a0 :: rest.*2.
Proof.
  intros Hall HD. revert a0.
  induction Hall as [|[d a] rest Hd _ IH]; intros a0; simpl in *.
  - by rewrite (proj2 (Nat.leb_le _ _)) by lia.
  - rewrite (proj2 (Nat.leb_le _ _)) by lia. simpl. by rewrite IH.
Qed.
End debounce_facts.

(* ===================================================================== *)
(** * The debounced function *)
(* ===================================================================== *)




(* ===================================================================== *)
(** * Reading a hook after an assignment *)
(* ===================================================================== *)

Lemma hooks_upd_hook i f p : hooks (upd_hook i f p) = alter f i (hooks p).
Proof. reflexivity. Qed.

Lemma alter_as_insert {X : Type} (f : X → X) (l : list X) i x :
  l !! i = Some x → alter f i l = <[i:=f x]> l.
Proof.
  revert i. induction l as [|y l IH]; intros [|i] Hi; simplify_eq/=; [done|].
  f_equal. by apply IH.
Qed.

Lemma upd_hook_lookup i f p h :
  hooks p !! i = Some h → hooks (upd_hook i f p) !! i = Some (f h).
Proof. intros Hi. rewrite hooks_upd_hook, list_lookup_alter_eq, Hi. done. Qed.

Lemma upd_hook_lookup_ne i j f p :
  i ≠ j → hooks (upd_hook i f p) !! j = hooks p !! j.
Proof. intros Hij. rewrite hooks_upd_hook. by apply list_lookup_alter_ne. Qed.

(** What [{ input, ...predictionOptions }] holds under each property name. *)
Lemma prediction_request_lookup input (options : JsObject) (key : string) :
  prediction_request input options !! key =
    match options !! key with
    | Some v => Some v
    | None => if decide (key = "input"%string) then Some (JStr input) else None
    end.
Proof.
  unfold prediction_request. rewrite lookup_union.
  destruct (options !! key) as [v|] eqn:Hk; simpl.
  - by destruct ({[ "input"%string := JStr input ]} !! key : option JsVal).
  - rewrite (left_id None _). case_decide as Hkey.
    + subst key. apply lookup_singleton_eq.
    + by apply lookup_singleton_ne.
Qed.

(* ===================================================================== *)
(** * An invocation of the search function *)
(* ===================================================================== *)



(** The scenario of the service returning two predictions: after the
    debounce window and the answer, [predictions] is that ordered pair. *)
Example two_predictions :
  let A := {| description := "A St"; place_id := "a" |} in
  let B := {| description := "B Ave"; place_id := "b" |} in
  (λ h, (predictions h, loading h)) <$>
    hooks (run [Search 0 "a"; Elapse 300; PredictionsAnswer 0 (Some [A; B])]
             ready) = [([A; B], false)].
Proof. reflexivity. Qed.

(** C3.  An invocation of the debounced function for a hook whose API is not
    loaded, or with the empty string, leaves the whole process as it was: no
    query, [loading] and [predictions] untouched.  And when the only timer
    that falls due is one of those, the idle period changes nothing but the
    timer table. *)
Theorem fetchPredictions_func_noop (i : nat) (input : string) (p : Process)
    (h : Hook) :
  hooks p !! i = Some h →
  isGoogleMapsApiLoaded h = false ∨ input = ""%string →
  fetchPredictions_func i input p = p ∧
  (∀ (hd t d : nat),
     queue (timers p) = [mkTimer hd t (i, input)] →
     t ≤ clock (timers p) + d →
     idle d p =
       with_timers {| clock := clock (timers p) + d;
                      fresh := fresh (timers p); queue := [] |} p).
Proof.
  intros Hi Hor.
  assert (Hnoop : ∀ p', hooks p' = hooks p → fetchPredictions_func i input p' = p').
  { intros p' Hp'. unfold fetchPredictions_func. rewrite Hp', Hi.
    destruct Hor as [-> | ->]; [done|].
    by rewrite orb_true_r. }
  split; [by apply Hnoop|].
  intros hd t d Hq Ht. unfold idle, elapse. rewrite Hq. simpl.
  rewrite (proj2 (Nat.leb_le _ _)) by done. simpl.
  by apply Hnoop.
Qed.

(** A hook whose component was never mounted, called with some input. *)
Lemma fetchPredictions_func_noop_witness :
  let p := run [Use "KEY" None; Search 0 "123 Main"] start in
  fetchPredictions_func 0 "123 Main" p = p ∧
  idle 300 p =
    with_timers {| clock := 300; fresh := 2; queue := [] |} p.
Proof.
  intros p.
  pose proof (fetchPredictions_func_noop 0 "123 Main" p
                (set_timeout (Some 1)
                   (set_mounted false
                      (set_isGoogleMapsApiLoaded false ready_hook)))
                eq_refl (or_introl eq_refl)) as [H1 H2].
  split; [exact H1|].
  apply (H2 1 300 300); [reflexivity | simpl; lia].
Defined.

(* ===================================================================== *)
(** * Clearing the predictions *)
(* ===================================================================== *)

(** C8.  [resetPredictions()] on hook [i] makes its [predictions] the empty
    list and changes nothing else: the hook's [loading] and
    [isGoogleMapsApiLoaded], every other hook, and every other part of the
    process, [googleMapsApiLoaded] included, stay as they were. *)
Theorem resetPredictions_clears (i : nat) (p : Process) (h : Hook) :
  hooks p !! i = Some h →
  resetPredictions i p =
    with_hooks (<[i:=set_predictions [] h]> (hooks p)) p ∧
  predictions (set_predictions [] h) = [] ∧
  loading (set_predictions [] h) = loading h ∧
  isGoogleMapsApiLoaded (set_predictions [] h) = isGoogleMapsApiLoaded h ∧
  googleMapsApiLoaded (resetPredictions i p) = googleMapsApiLoaded p ∧
  (∀ j, j ≠ i → hooks (resetPredictions i p) !! j = hooks p !! j).
Proof.
  intros Hi. repeat split.
  - unfold resetPredictions, upd_hook. by rewrite (alter_as_insert _ _ _ _ Hi).
  - intros j Hj. by apply upd_hook_lookup_ne.
Qed.

Lemma resetPredictions_clears_witness :
  (λ h, (predictions h, loading h, isGoogleMapsApiLoaded h)) <$>
    hooks (resetPredictions 0 busy) = [([], true, true)] ∧
  (λ h, (length (predictions h), loading h, isGoogleMapsApiLoaded h)) <$>
    hooks busy = [(2, true, true)].
Proof.
  split; [|reflexivity].
  rewrite (proj1 (resetPredictions_clears 0 busy busy_hook
                    ltac:(vm_compute; reflexivity))).
  reflexivity.
Defined.

(* ===================================================================== *)
(** * The request object *)
(* ===================================================================== *)

(** C9.  When the options of hook [i] have a property named [input], the
    query an invocation hands to the service carries that property's value
    under [input], not the text searched for. *)
Theorem predictionOptions_input_wins (i : nat) (input : string) (p : Process)
    (h : Hook) (v : JsVal) :
  hooks p !! i = Some h →
  isGoogleMapsApiLoaded h = true →
  google_maps_places p = true →
  input ≠ ""%string →
  predictionOptions h !! "input"%string = Some v →
  prediction_request input (predictionOptions h) !! "input"%string = Some v ∧
  ∃ query,
    predictionQueries (fetchPredictions_func i input p) =
      predictionQueries p ++ [query] ∧
    pq_request query !! "input"%string = Some v.
Proof.
  intros Hi Hloaded Hplaces Hinput Hv.
  assert (Hreq : prediction_request input (predictionOptions h)
                   !! "input"%string = Some v)
    by (by rewrite prediction_request_lookup, Hv).
  split; [done|].
  unfold fetchPredictions_func. rewrite Hi, Hloaded. simpl.
  rewrite bool_decide_eq_false_2 by done.
  change (google_maps_places (upd_hook i (set_loading true) p))
    with (google_maps_places p).
  rewrite Hplaces. by eexists.
Qed.

Lemma predictionOptions_input_wins_witness :
  (λ q, pq_request q !! "input"%string) <$>
    predictionQueries (fetchPredictions_func 0 "Lisbon" overridden) =
  [Some (JStr "Paris")].
Proof.
  destruct (predictionOptions_input_wins 0 "Lisbon" overridden
              overridden_hook (JStr "Paris")
              ltac:(vm_compute; reflexivity) eq_refl eq_refl
              ltac:(discriminate) ltac:(vm_compute; reflexivity))
    as (_ & query & -> & Hq).
  simpl. by rewrite Hq.
Defined.

(* ===================================================================== *)
(** * The configuration *)
(* ===================================================================== *)

Lemma elem_of_enqueue {A : Type} (t : Timer A) (q : list (Timer A)) :
  t ∈ enqueue t q.
Proof.
  induction q as [|u q IH]; simpl; [set_solver|].
  destruct (due u <=? due t); set_solver.
Qed.




(* ===================================================================== *)
(** * Place details *)
(* ===================================================================== *)

(** The claim that the promise of [fetchPlaceDetails] is fulfilled exactly
    when the service reports [OK] fails when the service reports [OK] and
    hands over no place: the callback tests [status === OK && place], and the
    promise is rejected with "Place details not found". *)
Lemma fetchPlaceDetails_OK_without_place :
  promises (run [Details 0 "xyz"; DetailsAnswer 0 None OK] ready) =
    [Rejected "Place details not found"].
Proof. reflexivity. Qed.

(** C4, amended.  A call of [fetchPlaceDetails(placeId)] on a hook with the
    API loaded hands one lookup for [{ placeId }] to the service and returns
    a pending promise, touching no hook.  When the service answers while the
    namespace [google.maps.places] is still there, the promise is fulfilled
    with the place exactly when the status is [OK] and a place came with it;
    in every other case (any other status, [ZERO_RESULTS] included, or no
    place) it is rejected with "Place details not found".  Should the
    namespace be gone by the time the service answers, the callback throws
    on reading the status constant and the promise stays pending.  In every
    case the hooks, so their [predictions] and [loading], are left as they
    were. *)
Theorem fetchPlaceDetails_settles (i : nat) (placeId : string) (p : Process)
    (h : Hook) :
  hooks p !! i = Some h →
  isGoogleMapsApiLoaded h = true →
  google_maps_places p = true →
  let n := (fetchPlaceDetails i placeId p).1 in
  let p1 := (fetchPlaceDetails i placeId p).2 in
  n = length (promises p) ∧
  p1 = with_detailsQueries
         (detailsQueries p ++
            [{| dq_promise := n; dq_placeId := placeId;
                dq_answered := false |}])
         (with_promises (promises p ++ [Pending]) p) ∧
  hooks p1 = hooks p ∧
  (∀ (p2 : Process) (k : nat) (sent : DetailsQuery)
     (place : option PlaceResult) (status : PlacesServiceStatus),
     detailsQueries p2 !! k = Some sent →
     dq_promise sent = n →
     promises p2 !! n = Some Pending →
     (google_maps_places p2 = true →
      promises (details_callback k place status p2) !! n =
        Some (details_outcome place status)) ∧
     (google_maps_places p2 = false →
      promises (details_callback k place status p2) !! n = Some Pending) ∧
     hooks (details_callback k place status p2) = hooks p2) ∧
  (∀ (place : option PlaceResult) (status : PlacesServiceStatus),
     (∀ pl, details_outcome place status = Resolved (Some pl) ↔
            status = OK ∧ place = Some pl) ∧
     (details_outcome place status = Rejected "Place details not found" ↔
      status ≠ OK ∨ place = None)).
Proof.
  intros Hi Hloaded Hplaces n p1.
  assert (Hn : n = length (promises p)).
  { unfold n, fetchPlaceDetails. rewrite Hi, Hloaded, Hplaces. done. }
  split; [done|]. split; [|split; [|split]].
  - unfold p1, fetchPlaceDetails. rewrite Hi, Hloaded, Hplaces. simpl.
    by rewrite Hn.
  - unfold p1, fetchPlaceDetails. by rewrite Hi, Hloaded, Hplaces.
  - intros p2 k sent place status Hk Hsent Hpending.
    unfold details_callback. rewrite Hk, Hsent.
    split; [|split].
    + intros ->. simpl. by rewrite list_lookup_alter_eq, Hpending.
    + intros ->. simpl. exact Hpending.
    + by destruct (google_maps_places p2).
  - intros place status. split.
    + intros pl. destruct status, place; simpl; intuition congruence.
    + destruct status, place; simpl; intuition congruence.
Qed.

Lemma fetchPlaceDetails_settles_witness :
  promises (fetchPlaceDetails 0 "xyz" ready).2 !! 0 = Some Pending ∧
  promises
    (details_callback 0 (Some ∅) ZERO_RESULTS (fetchPlaceDetails 0 "xyz" ready).2)
    !! 0 = Some (Rejected "Place details not found") ∧
  promises
    (details_callback 0 (Some ∅) OK (fetchPlaceDetails 0 "xyz" ready).2)
    !! 0 = Some (Resolved (Some ∅)).
Proof.
  destruct (fetchPlaceDetails_settles 0 "xyz" ready ready_hook
              eq_refl eq_refl eq_refl) as (Hn & Hp1 & _ & Hcb & _).
  split; [reflexivity|].
  split.
  - refine (proj1 (Hcb (fetchPlaceDetails 0 "xyz" ready).2 0
                     {| dq_promise := 0; dq_placeId := "xyz";
                        dq_answered := false |}
                     (Some ∅) ZERO_RESULTS _ _ _) _); reflexivity.
  - refine (proj1 (Hcb (fetchPlaceDetails 0 "xyz" ready).2 0
                     {| dq_promise := 0; dq_placeId := "xyz";
                        dq_answered := false |}
                     (Some ∅) OK _ _ _) _); reflexivity.
Defined.

(* ===================================================================== *)
(** * The script loader's contract *)
(* ===================================================================== *)

Lemma script_settles k s v p :
  document_head p !! k = Some s →
  load_promise s = Pending →
  load_promise <$>
    alter (set_load_promise v) k (document_head p) !! k = Some v.
Proof.
  intros Hk Hs. rewrite list_lookup_alter_eq, Hk. simpl.
  by rewrite Hs.
Qed.

(** C5.  [loadGoogleMapsApi]:
    - with [googleMapsApiLoaded] set, returns a fulfilled promise and leaves
      the process, the document included, as it was;
    - otherwise appends to the document's head one script whose address ends
      in [?key=<apiKey>&libraries=<libraries joined by commas>&language=<language>],
      and returns the promise tied to it, still pending;
    - the [load] event of a script that has fired no event yet sets
      [googleMapsApiLoaded] and fulfils its promise; its [error] event
      rejects the promise with "Failed to load Google Maps API" and leaves
      the flag alone;
    - two calls with no [load] event before the second one each insert their
      own script. *)
Theorem loadGoogleMapsApi_contract (key : string) (libs : list string)
    (lang : string) (p : Process) :
  (googleMapsApiLoaded p = true →
   loadGoogleMapsApi key libs lang p = (AlreadyResolved, p)) ∧
  (googleMapsApiLoaded p = false →
   loadGoogleMapsApi key libs lang p =
     (OfScript (length (document_head p)),
      with_document_head
        (document_head p ++
           [{| src := ("https://maps.googleapis.com/maps/api/js?key=" +:+ key
                       +:+ "&libraries=" +:+ String.concat "," libs
                       +:+ "&language=" +:+ lang)%string;
               async := true; defer := true; load_promise := Pending |}]) p)) ∧
  (∀ k s,
     document_head p !! k = Some s →
     load_promise s = Pending →
     googleMapsApiLoaded (step (ScriptLoad k) p) = true ∧
     load_promise <$> document_head (step (ScriptLoad k) p) !! k =
       Some (Resolved ()) ∧
     googleMapsApiLoaded (step (ScriptError k) p) = googleMapsApiLoaded p ∧
     load_promise <$> document_head (step (ScriptError k) p) !! k =
       Some (Rejected "Failed to load Google Maps API")) ∧
  (googleMapsApiLoaded p = false →
   ∀ key' libs' lang',
     let p1 := (loadGoogleMapsApi key libs lang p).2 in
     let p2 := (loadGoogleMapsApi key' libs' lang' p1).2 in
     (loadGoogleMapsApi key libs lang p).1 = OfScript (length (document_head p)) ∧
     (loadGoogleMapsApi key' libs' lang' p1).1 =
       OfScript (S (length (document_head p))) ∧
     document_head p2 =
       document_head p ++
         [{| src := script_src key libs lang; async := true; defer := true;
             load_promise := Pending |};
          {| src := script_src key' libs' lang'; async := true; defer := true;
             load_promise := Pending |}]).
Proof.
  split; [|split; [|split]].
  - intros Hset. unfold loadGoogleMapsApi. by rewrite Hset.
  - intros Hunset. unfold loadGoogleMapsApi. by rewrite Hunset.
  - intros k s Hk Hs. simpl. rewrite Hk, Hs. simpl.
    split; [done|]. split; [by apply (script_settles k s)|].
    split; [done|]. by apply (script_settles k s).
  - intros Hunset key' libs' lang' p1 p2.
    unfold p2, p1, loadGoogleMapsApi. rewrite Hunset. simpl. rewrite Hunset.
    simpl. split; [done|]. split.
    + f_equal. rewrite length_app. simpl. lia.
    + by rewrite <- app_assoc.
Qed.

Lemma loadGoogleMapsApi_contract_witness :
  loadGoogleMapsApi "K3" ["places"%string] "en"
    (step (ScriptLoad 0) loading_page) =
    (AlreadyResolved, step (ScriptLoad 0) loading_page) ∧
  (src <$> document_head
             (loadGoogleMapsApi "K2" ["places"; "geometry"]%string "pt-BR"
                loading_page).2) =
    ["https://maps.googleapis.com/maps/api/js?key=K1&libraries=places&language=en";
     "https://maps.googleapis.com/maps/api/js?key=K2&libraries=places,geometry&language=pt-BR"]%string ∧
  googleMapsApiLoaded (step (ScriptLoad 0) loading_page) = true ∧
  load_promise <$> document_head (step (ScriptError 0) loading_page) !! 0 =
    Some (Rejected "Failed to load Google Maps API").
Proof.
  split; [|split].
  - apply (proj1 (loadGoogleMapsApi_contract "K3" ["places"%string] "en"
                    (step (ScriptLoad 0) loading_page))).
    reflexivity.
  - rewrite (proj1 (proj2 (loadGoogleMapsApi_contract "K2"
                             ["places"; "geometry"]%string "pt-BR"
                             loading_page)) eq_refl).
    reflexivity.
  - destruct (proj1 (proj2 (proj2 (loadGoogleMapsApi_contract "K2" [] ""
                                     loading_page)))
                0 _ eq_refl eq_refl) as (Hflag & _ & _ & Herr).
    split; [exact Hflag | exact Herr].
Defined.

(* ===================================================================== *)
(** * The two load flags along a run *)
(* ===================================================================== *)

(** To show that something holds after an idle period, show that it holds
    once the due timers are off the table and that each invocation of the
    debounced function keeps it. *)
Lemma idle_ind (P : Process → Prop) (d : nat) (p : Process) :
  P (with_timers (elapse d (timers p)).2 p) →
  (∀ i input p', P p' → P (fetchPredictions_func i input p')) →
  P (idle d p).
Proof.
  intros H0 Hstep. unfold idle.
  destruct (elapse d (timers p)) as [fired tm]. simpl in H0.
  revert H0. generalize (with_timers tm p).
  induction fired as [|c fired IH]; intros p0 H0; simpl; [done|].
  apply IH, Hstep, H0.
Qed.

Lemma flag_fetchPredictions_func i input p :
  googleMapsApiLoaded (fetchPredictions_func i input p) = googleMapsApiLoaded p.
Proof.
  unfold fetchPredictions_func.
  destruct (hooks p !! i) as [h|]; [|done].
  destruct (_ || _); [done|].
  by destruct (google_maps_places _).
Qed.

Lemma flag_onMounted i p :
  googleMapsApiLoaded (onMounted i p) = googleMapsApiLoaded p.
Proof.
  unfold onMounted, loadGoogleMapsApi.
  destruct (hooks p !! i) as [h|]; [|done].
  destruct (google_maps_places p); [done|].
  by destruct (googleMapsApiLoaded p) eqn:E.
Qed.

(** The only event that writes [googleMapsApiLoaded] is the [load] event of a
    script that has fired no event yet, and it writes [true]. *)
Lemma flag_step e p :
  googleMapsApiLoaded (step e p) =
    match e with
    | ScriptLoad k =>
        match document_head p !! k with
        | Some s =>
            if is_pending (load_promise s) then true else googleMapsApiLoaded p
        | None => googleMapsApiLoaded p
        end
    | _ => googleMapsApiLoaded p
    end.
Proof.
  destruct e as [key o|i|i input|d|q results|i placeId|q place status|i|k|k|b];
    simpl; try done.
  - destruct (hooks p !! i) as [h|]; [|done].
    destruct (mounted h); [done|]. by rewrite flag_onMounted.
  - unfold fetchPredictions. destruct (hooks p !! i) as [h|]; [|done].
    by destruct (debounced _ _ _ _).
  - apply (idle_ind (λ p', googleMapsApiLoaded p' = googleMapsApiLoaded p));
      [done|].
    intros i input p' <-. apply flag_fetchPredictions_func.
  - destruct (predictionQueries p !! q) as [query|] eqn:E; [|done].
    destruct (pq_answered query); [done|].
    unfold predictions_callback. by rewrite E.
  - unfold fetchPlaceDetails. destruct (hooks p !! i) as [h|]; [|done].
    destruct (negb _); [done|]. by destruct (google_maps_places p).
  - destruct (detailsQueries p !! q) as [query|] eqn:E; [|done].
    destruct (dq_answered query); [done|].
    unfold details_callback. rewrite E.
    by destruct (google_maps_places p).
  - destruct (document_head p !! k) as [s|]; [|done].
    by destruct (is_pending _).
  - destruct (document_head p !! k) as [s|]; [|done].
    by destruct (is_pending _).
Qed.

Lemma hook_flag_upd_hook j f p i :
  (∀ h, isGoogleMapsApiLoaded (f h) = isGoogleMapsApiLoaded h) →
  hook_flag i (upd_hook j f p) = hook_flag i p.
Proof.
  intros Hf. unfold hook_flag. rewrite hooks_upd_hook, list_lookup_alter.
  case_decide; [subst j|done].
  destruct (hooks p !! i) as [h|]; simpl; [|done]. by rewrite Hf.
Qed.

Lemma hook_flag_fetchPredictions_func j input p i :
  hook_flag i (fetchPredictions_func j input p) = hook_flag i p.
Proof.
  unfold fetchPredictions_func.
  destruct (hooks p !! j) as [h|]; [|done].
  destruct (_ || _); [done|].
  destruct (google_maps_places _); by apply hook_flag_upd_hook.
Qed.

Lemma hook_flag_set_true j p i :
  hook_flag i (upd_hook j (set_isGoogleMapsApiLoaded true) p) =
    if decide (j = i) then (λ _, true) <$> hook_flag j p else hook_flag i p.
Proof.
  unfold hook_flag. rewrite hooks_upd_hook, list_lookup_alter.
  case_decide; [subst j|done]. by destruct (hooks p !! i).
Qed.

Lemma is_pending_true {R : Type} (s : Settle R) :
  is_pending s = true → s = Pending.
Proof. by destruct s. Qed.

(** What one event can do to the flag of hook [i]: nothing; or create the
    hook, unloaded; or turn the flag from false to true, which only the
    hook's own mounted callback does, either at once (the namespace is there,
    or [loadGoogleMapsApi] returned a fulfilled promise) or when the script
    it waits on fires [load]. *)
Lemma hook_flag_step e p i :
  hook_flag i (step e p) = hook_flag i p ∨
  (hook_flag i p = None ∧ hook_flag i (step e p) = Some false ∧
   ∃ key o, e = Use key o) ∨
  (hook_flag i p = Some false ∧ hook_flag i (step e p) = Some true ∧
   ((e = Mount i ∧
     ∃ h, hooks p !! i = Some h ∧ mounted h = false ∧
          (google_maps_places p = true ∨ googleMapsApiLoaded p = true)) ∨
    (∃ k h s, e = ScriptLoad k ∧ hooks p !! i = Some h ∧
              awaiting h = Some k ∧ document_head p !! k = Some s ∧
              load_promise s = Pending))).
Proof.
  destruct e as [key o|j|j input|d|q results|j placeId|q place status|j|k|k|b];
    simpl.
  - (* Use *)
    unfold hook_flag. simpl.
    destruct (lt_eq_lt_dec i (length (hooks p))) as [[Hlt|Heq]|Hgt].
    + left. by rewrite lookup_app_l.
    + right; left. subst i.
      rewrite list_lookup_middle by done.
      rewrite lookup_ge_None_2 by done. eauto.
    + left. rewrite !lookup_ge_None_2; [done|lia|].
      rewrite length_app. simpl. lia.
  - (* Mount *)
    destruct (hooks p !! j) as [h|] eqn:Hj; [|by left].
    destruct (mounted h) eqn:Hm; [by left|].
    set (p0 := upd_hook j (set_mounted true) p).
    assert (H0 : ∀ i', hook_flag i' p0 = hook_flag i' p)
      by (intros i'; by apply hook_flag_upd_hook).
    assert (Htrue : ∀ p1,
      (∀ i', hook_flag i' p1 = hook_flag i' p) →
      google_maps_places p = true ∨ googleMapsApiLoaded p = true →
      let p' := upd_hook j (set_isGoogleMapsApiLoaded true) p1 in
      hook_flag i p' = hook_flag i p ∨
      (hook_flag i p = Some false ∧ hook_flag i p' = Some true ∧
       j = i)).
    { intros p1 H1 Hor p'. unfold p'. rewrite hook_flag_set_true.
      case_decide as Hji; [subst j|by left].
      rewrite H1. unfold hook_flag. rewrite Hj. simpl.
      destruct (isGoogleMapsApiLoaded h); [by left|by right]. }
    unfold onMounted.
    replace (hooks p0 !! j) with (Some (set_mounted true h))
      by (symmetry; by apply upd_hook_lookup).
    change (google_maps_places p0) with (google_maps_places p).
    destruct (google_maps_places p) eqn:Hg.
    { destruct (Htrue p0 H0 (or_introl eq_refl)) as [?|(?&?&->)]; [by left|].
      right; right. split; [done|]. split; [done|]. left. eauto 10. }
    unfold loadGoogleMapsApi.
    change (googleMapsApiLoaded p0) with (googleMapsApiLoaded p).
    destruct (googleMapsApiLoaded p) eqn:Hf.
    { destruct (Htrue p0 H0 (or_intror eq_refl)) as [?|(?&?&->)]; [by left|].
      right; right. split; [done|]. split; [done|]. left. eauto 10. }
    left. rewrite hook_flag_upd_hook by done. apply H0.
  - (* Search *)
    left. unfold fetchPredictions. destruct (hooks p !! j) as [h|]; [|done].
    destruct (debounced _ _ _ _) as [to tm].
    by rewrite hook_flag_upd_hook.
  - (* Elapse *)
    left. apply (idle_ind (λ p', hook_flag i p' = hook_flag i p)); [done|].
    intros j input p' <-. apply hook_flag_fetchPredictions_func.
  - (* PredictionsAnswer *)
    left. destruct (predictionQueries p !! q) as [query|] eqn:E; [|done].
    destruct (pq_answered query); [done|].
    unfold predictions_callback. rewrite E.
    by rewrite !hook_flag_upd_hook.
  - (* Details *)
    left. unfold fetchPlaceDetails. destruct (hooks p !! j) as [h|]; [|done].
    destruct (negb _); [done|]. by destruct (google_maps_places p).
  - (* DetailsAnswer *)
    left. destruct (detailsQueries p !! q) as [query|] eqn:E; [|done].
    destruct (dq_answered query); [done|].
    unfold details_callback. rewrite E.
    by destruct (google_maps_places p).
  - (* Clear *)
    left. by apply hook_flag_upd_hook.
  - (* ScriptLoad *)
    destruct (document_head p !! k) as [s|] eqn:Hk; [|by left].
    destruct (is_pending (load_promise s)) eqn:Hs; [|by left].
    apply is_pending_true in Hs.
    unfold hook_flag, script_onload. simpl. rewrite list_lookup_fmap.
    destruct (hooks p !! i) as [h|] eqn:Hi; simpl; [|by left].
    unfold resume. case_decide as Hw; [|by left].
    simpl. destruct (isGoogleMapsApiLoaded h) eqn:Hl; [by left|].
    right; right. split; [done|]. split; [done|]. right. eauto 10.
  - (* ScriptError *)
    left. destruct (document_head p !! k) as [s|] eqn:Hk; [|done].
    destruct (is_pending (load_promise s)) eqn:Hs; [|done].
    unfold hook_flag, script_onerror. simpl. rewrite list_lookup_fmap.
    destruct (hooks p !! i) as [h|] eqn:Hi; simpl; [|done].
    unfold resume. by case_decide.
  - (* Namespace *)
    by left.
Qed.

Lemma flag_stays_set e p :
  googleMapsApiLoaded p = true → googleMapsApiLoaded (step e p) = true.
Proof.
  intros Hp. rewrite flag_step. destruct e; try done.
  destruct (document_head p !! k) as [s|]; [|done].
  by destruct (is_pending _).
Qed.

Lemma flag_history_set tr p :
  googleMapsApiLoaded p = true →
  googleMapsApiLoaded <$> trajectory tr p = replicate (length tr) true.
Proof.
  revert p. induction tr as [|e tr IH]; intros p Hp; [done|].
  pose proof (flag_stays_set e p Hp) as Hp'.
  cbn [trajectory length replicate]. rewrite fmap_cons, Hp'. f_equal.
  by apply IH.
Qed.

Lemma flag_history_unset tr p :
  googleMapsApiLoaded p = false →
  ∃ n m, googleMapsApiLoaded <$> trajectory tr p =
           replicate n false ++ replicate m true.
Proof.
  revert p. induction tr as [|e tr IH]; intros p Hp.
  - by exists 0, 0.
  - cbn [trajectory]. rewrite fmap_cons.
    destruct (googleMapsApiLoaded (step e p)) eqn:Hp'.
    + exists 0, (S (length tr)). rewrite flag_history_set by done. done.
    + destruct (IH _ Hp') as (n & m & ->). by exists (S n), m.
Qed.

Lemma hook_flag_stays_set e p i :
  hook_flag i p = Some true → hook_flag i (step e p) = Some true.
Proof.
  intros Hp.
  destruct (hook_flag_step e p i) as [->|[(H&_)|(H&_)]]; congruence.
Qed.

Lemma hook_history_set tr p i :
  hook_flag i p = Some true →
  hook_flag i <$> trajectory tr p = replicate (length tr) (Some true).
Proof.
  revert p. induction tr as [|e tr IH]; intros p Hp; [done|].
  pose proof (hook_flag_stays_set e p i Hp) as Hp'.
  cbn [trajectory length replicate]. rewrite fmap_cons, Hp'. f_equal.
  by apply IH.
Qed.

Lemma hook_history_unset tr p i :
  hook_flag i p = Some false →
  ∃ b c, hook_flag i <$> trajectory tr p =
           replicate b (Some false) ++ replicate c (Some true).
Proof.
  revert p. induction tr as [|e tr IH]; intros p Hp.
  - by exists 0, 0.
  - cbn [trajectory]. rewrite fmap_cons.
    destruct (hook_flag_step e p i) as [He|[(H&_)|(_&He&_)]]; [|congruence|].
    + rewrite He, Hp. rewrite <- He in Hp.
      destruct (IH _ Hp) as (b & c & ->). by exists (S b), c.
    + rewrite He. exists 0, (S (length tr)).
      rewrite hook_history_set by done. done.
Qed.

Lemma hook_history_none tr p i :
  hook_flag i p = None →
  ∃ a b c, hook_flag i <$> trajectory tr p =
             replicate a None ++ replicate b (Some false) ++
             replicate c (Some true).
Proof.
  revert p. induction tr as [|e tr IH]; intros p Hp.
  - by exists 0, 0, 0.
  - cbn [trajectory]. rewrite fmap_cons.
    destruct (hook_flag_step e p i) as [He|[(_&He&_)|(H&_)]]; [| |congruence].
    + rewrite He, Hp. rewrite <- He in Hp.
      destruct (IH _ Hp) as (a & b & c & ->). by exists (S a), b, c.
    + rewrite He. destruct (hook_history_unset tr _ i He) as (b & c & ->).
      by exists 0, (S b), c.
Qed.

(** C6.  From the start of the process, along any run:
    - [googleMapsApiLoaded] starts unset; an event never unsets it; the only
      event that sets it is the [load] event of an inserted script that had
      fired nothing yet, and every such event sets it; so its history is a
      run of [false] followed by a run of [true];
    - the [isGoogleMapsApiLoaded] of a hook, once true, is true after every
      event; a hook is created with it false; it turns true only in the
      hook's own mounted callback, at once when the namespace is there or the
      loader's promise is already fulfilled, or on the [load] event of the
      script the callback waits on; so its history is: no hook, then false,
      then true. *)
Theorem load_flags_are_never_reset (tr : list Event) (p : Process)
    (e : Event) (i : nat) :
  googleMapsApiLoaded start = false ∧
  (googleMapsApiLoaded p = true → googleMapsApiLoaded (step e p) = true) ∧
  (googleMapsApiLoaded p = false →
   googleMapsApiLoaded (step e p) = true →
   ∃ k s, e = ScriptLoad k ∧ document_head p !! k = Some s ∧
          load_promise s = Pending) ∧
  (∀ k s, document_head p !! k = Some s → load_promise s = Pending →
     googleMapsApiLoaded (step (ScriptLoad k) p) = true) ∧
  (∃ n m, googleMapsApiLoaded <$> (start :: trajectory tr start) =
            replicate (S n) false ++ replicate m true) ∧
  (hook_flag i p = Some true → hook_flag i (step e p) = Some true) ∧
  (hook_flag i p = None → hook_flag i (step e p) ≠ Some true) ∧
  (hook_flag i p = Some false →
   hook_flag i (step e p) = Some true →
   (e = Mount i ∧
    ∃ h, hooks p !! i = Some h ∧ mounted h = false ∧
         (google_maps_places p = true ∨ googleMapsApiLoaded p = true)) ∨
   (∃ k h s, e = ScriptLoad k ∧ hooks p !! i = Some h ∧
             awaiting h = Some k ∧ document_head p !! k = Some s ∧
             load_promise s = Pending)) ∧
  (∃ a b c, hook_flag i <$> (start :: trajectory tr start) =
              replicate (S a) None ++ replicate b (Some false) ++
              replicate c (Some true)).
Proof.
  split; [done|]. split; [apply flag_stays_set|].
  split.
  { intros Hp Hp'. rewrite flag_step in Hp'. destruct e; try congruence.
    destruct (document_head p !! k) as [s|] eqn:Hk; [|congruence].
    destruct (is_pending (load_promise s)) eqn:Hs; [|congruence].
    exists k, s. split; [done|]. split; [done|]. by apply is_pending_true. }
  split.
  { intros k s Hk Hs. rewrite flag_step, Hk, Hs. done. }
  split.
  { destruct (flag_history_unset tr start eq_refl) as (n & m & Hh).
    exists n, m. rewrite fmap_cons, Hh. done. }
  split; [apply hook_flag_stays_set|].
  split.
  { intros Hp.
    destruct (hook_flag_step e p i) as [->|[(_&->&_)|(H&_)]]; congruence. }
  split.
  { intros Hp Hp'.
    destruct (hook_flag_step e p i) as [He|[(H&_)|(_&_&Hor)]];
      [congruence|congruence|done]. }
  destruct (hook_history_none tr start i eq_refl) as (a & b & c & Hh).
  exists a, b, c. rewrite fmap_cons, Hh. done.
Qed.

Lemma load_flags_are_never_reset_witness :
  googleMapsApiLoaded (step (Clear 1) (run mixed_page start)) = true ∧
  hook_flag 2 (step (Namespace true) (run mixed_page start)) = Some true ∧
  googleMapsApiLoaded <$> (start :: trajectory mixed_page start) =
    replicate 6 false ++ replicate 7 true ∧
  hook_flag 2 <$> (start :: trajectory mixed_page start) =
    replicate 7 None ++ replicate 1 (Some false) ++ replicate 5 (Some true).
Proof.
  destruct (load_flags_are_never_reset mixed_page (run mixed_page start)
              (Clear 1) 2) as (_ & Hset & _ & _ & _ & _).
  destruct (load_flags_are_never_reset mixed_page (run mixed_page start)
              (Namespace true) 2) as (_ & _ & _ & _ & _ & Hhook & _).
  split; [apply Hset; reflexivity|].
  split; [apply Hhook; reflexivity|].
  split; reflexivity.
Defined.

(* ===================================================================== *)
(** * A hook whose API never loaded *)
(* ===================================================================== *)

Lemma owned_snoc i qs q : owned i (qs ++ [q]) ↔ owned i qs ∨ pq_hook q = i.
Proof.
  unfold owned. split.
  - intros (q' & Hq' & Hi). apply elem_of_app in Hq' as [Hq'|Hq'].
    + left. eauto.
    + right. apply list_elem_of_singleton in Hq'. by subst.
  - intros [(q' & Hq' & Hi)|Hi].
    + exists q'. split; [|done]. apply elem_of_app. by left.
    + exists q. split; [|done]. apply elem_of_app. right.
      by apply list_elem_of_singleton.
Qed.

Lemma hooks_of_answered k (qs : list PredictionQuery) :
  pq_hook <$> alter answer_prediction k qs = pq_hook <$> qs.
Proof.
  revert k. induction qs as [|q qs IH]; intros [|k]; simpl; try done.
  f_equal. apply IH.
Qed.

Lemma owned_hooks i qs : owned i qs ↔ i ∈ pq_hook <$> qs.
Proof.
  unfold owned. rewrite list_elem_of_fmap. split.
  - intros (q & Hq & Hi). by exists q.
  - intros (q & Hi & Hq). by exists q.
Qed.

Lemma owned_answered i k qs :
  owned i (alter answer_prediction k qs) ↔ owned i qs.
Proof. by rewrite !owned_hooks, hooks_of_answered. Qed.

Lemma inv_start : inv start.
Proof.
  split.
  - intros i h Hi. simpl in Hi. by rewrite lookup_nil in Hi.
  - intros q Hq. simpl in Hq. by apply elem_of_nil in Hq.
Qed.

(** Writing to hook [j] keeps the invariant when the hook written keeps its
    own. *)
Lemma inv_upd_hook j f p :
  inv p →
  (∀ h, hooks p !! j = Some h →
        hook_inv (predictionQueries p) j h →
        hook_inv (predictionQueries p) j (f h)) →
  inv (upd_hook j f p).
Proof.
  intros [Hh Hq] Hf. split.
  - intros i h'. rewrite hooks_upd_hook, list_lookup_alter.
    case_decide; [subst j|apply Hh].
    destruct (hooks p !! i) as [h|] eqn:Hi; simpl; [|done].
    intros [= <-]. apply Hf; [done|]. by apply Hh.
  - intros q Hin. rewrite hooks_upd_hook, length_alter. by apply Hq.
Qed.

Lemma inv_fetchPredictions_func j input p :
  inv p → inv (fetchPredictions_func j input p).
Proof.
  intros Hinv. unfold fetchPredictions_func.
  destruct (hooks p !! j) as [h|] eqn:Hj; [|done].
  destruct (isGoogleMapsApiLoaded h) eqn:Hl; simpl; [|done].
  destruct (bool_decide _); [done|].
  assert (H1 : inv (upd_hook j (set_loading true) p)).
  { apply inv_upd_hook; [done|]. intros h0 Hh0 (Ha & Hb & Hc).
    rewrite Hj in Hh0. injection Hh0 as <-.
    split; [exact Ha|]. split; [exact Hb|]. simpl. congruence. }
  change (google_maps_places (upd_hook j (set_loading true) p))
    with (google_maps_places p).
  destruct (google_maps_places p); [|exact H1].
  destruct H1 as [Hh Hq]. split.
  - intros i h' Hi. destruct (Hh i h' Hi) as (Ha & Hb & Hc).
    split; [exact Ha|]. split; [exact Hb|].
    intros Hf. destruct (Hc Hf) as (Hp & Hlo & Hno).
    split; [done|]. split; [done|].
    simpl. rewrite owned_snoc. intros [Ho|Hji]; [by apply Hno|].
    simpl in Hji. subst i.
    assert (Heq : Some h' = Some (set_loading true h))
      by (rewrite <- Hi; apply (upd_hook_lookup _ _ _ _ Hj)).
    injection Heq as ->. simpl in Hf. congruence.
  - intros q Hin. simpl in Hin. simpl.
    apply elem_of_app in Hin as [Hin|Hin]; [by apply Hq|].
    apply list_elem_of_singleton in Hin. subst q. simpl.
    rewrite length_alter. by eapply lookup_lt_Some.
Qed.

Lemma hook_inv_resume qs i k ok h :
  hook_inv qs i h → hook_inv qs i (resume k ok h).
Proof.
  intros (Ha & Hb & Hc). unfold resume. case_decide as Hw; [|done].
  assert (Hm : mounted h = true).
  { destruct (mounted h) eqn:Hm; [done|].
    destruct (Ha eq_refl) as [_ Hn]. congruence. }
  destruct ok; simpl.
  - split; [simpl; congruence|]. split; [by intros []|]. simpl. congruence.
  - split; [simpl; congruence|]. split; [by intros []|]. exact Hc.
Qed.

Lemma inv_resume k ok p :
  inv p → inv (with_hooks (resume k ok <$> hooks p) p).
Proof.
  intros [Hh Hq]. split.
  - intros i h'. simpl. rewrite list_lookup_fmap.
    destruct (hooks p !! i) as [h|] eqn:Hi; simpl; [|done].
    intros [= <-]. apply hook_inv_resume. by apply Hh.
  - intros q Hin. simpl. rewrite length_fmap. by apply Hq.
Qed.

(** Every event keeps the invariant. *)
Lemma inv_step e p : inv p → inv (step e p).
Proof.
  intros Hinv.
  destruct e as [key o|j|j input|d|q results|j placeId|q place status|j|k|k|b];
    simpl.
  - (* Use *)
    destruct Hinv as [Hh Hq]. split.
    + intros i h Hi. simpl in Hi.
      apply lookup_app_Some in Hi as [Hi|[Hlen Hi]]; [by apply Hh|].
      destruct (i - length (hooks p)) as [|n] eqn:Hn; [|done].
      simpl in Hi. injection Hi as <-. simpl.
      split; [done|]. split; [by intros []|]. intros _.
      split; [done|]. split; [done|].
      intros (q & Hin & Hown). apply Hq in Hin. lia.
    + intros q Hin. simpl. rewrite length_app. simpl.
      apply Hq in Hin. lia.
  - (* Mount *)
    destruct (hooks p !! j) as [h|] eqn:Hj; [|done].
    destruct (mounted h) eqn:Hm; [done|].
    destruct (proj1 Hinv j h Hj) as (Ha & Hb & Hc).
    destruct (Ha Hm) as [Hl Hw].
    set (p0 := upd_hook j (set_mounted true) p).
    assert (Hj0 : hooks p0 !! j = Some (set_mounted true h))
      by (by apply upd_hook_lookup).
    assert (H0 : inv p0).
    { apply inv_upd_hook; [done|]. intros h0 Hh0 _.
      rewrite Hj in Hh0. injection Hh0 as <-.
      split; [simpl; congruence|]. split; [exact Hb|exact Hc]. }
    assert (Htrue : inv (upd_hook j (set_isGoogleMapsApiLoaded true) p0)).
    { apply inv_upd_hook; [done|]. intros h0 Hh0 _.
      rewrite Hj0 in Hh0. injection Hh0 as <-.
      split; [simpl; congruence|].
      split; [simpl; rewrite Hw; by intros []|]. simpl. congruence. }
    unfold onMounted. rewrite Hj0.
    change (google_maps_places p0) with (google_maps_places p).
    destruct (google_maps_places p); [exact Htrue|].
    unfold loadGoogleMapsApi.
    change (googleMapsApiLoaded p0) with (googleMapsApiLoaded p).
    destruct (googleMapsApiLoaded p); [exact Htrue|].
    apply (inv_upd_hook j _ (with_document_head _ p0)); [exact H0|].
    intros h0 Hh0 _. change (hooks p0 !! j = Some h0) in Hh0.
    rewrite Hj0 in Hh0. injection Hh0 as <-.
    split; [simpl; congruence|]. split; [done|exact Hc].
  - (* Search *)
    unfold fetchPredictions. destruct (hooks p !! j) as [h|] eqn:Hj; [|done].
    destruct (debounced _ _ _ _) as [to tm].
    apply (inv_upd_hook j _ (with_timers tm p)); [exact Hinv|].
    by intros h0 _ Hh0.
  - (* Elapse *)
    apply (idle_ind inv); [exact Hinv|].
    intros i input p' Hp'. by apply inv_fetchPredictions_func.
  - (* PredictionsAnswer *)
    destruct (predictionQueries p !! q) as [query|] eqn:Hq; [|done].
    destruct (pq_answered query); [done|].
    unfold predictions_callback. rewrite Hq.
    assert (Hown : owned (pq_hook query) (predictionQueries p)).
    { exists query. split; [|done]. by eapply list_elem_of_lookup_2. }
    assert (H1 : inv (with_predictionQueries
                        (alter answer_prediction q (predictionQueries p)) p)).
    { destruct Hinv as [Hh Hb]. split.
      - intros i h Hi. destruct (Hh i h Hi) as (Ha & Hw & Hc).
        split; [exact Ha|]. split; [exact Hw|].
        intros Hf. destruct (Hc Hf) as (? & ? & Hno).
        split; [done|]. split; [done|]. simpl. by rewrite owned_answered.
      - intros q' Hin. simpl in *.
        assert (Ho : owned (pq_hook q')
                       (alter answer_prediction q (predictionQueries p)))
          by (by exists q').
        apply owned_answered in Ho as (q0 & Hin0 & <-). by apply Hb. }
    assert (Hloaded : ∀ h, hooks p !! pq_hook query = Some h →
                           isGoogleMapsApiLoaded h = true).
    { intros h Hh. destruct (isGoogleMapsApiLoaded h) eqn:Hl; [done|].
      destruct (proj1 Hinv _ _ Hh) as (_ & _ & Hc).
      destruct (Hc Hl) as (_ & _ & Hno). by destruct Hno. }
    apply inv_upd_hook.
    { apply inv_upd_hook; [exact H1|].
      intros h Hh (Ha & Hw & Hc). simpl in Hh.
      split; [exact Ha|]. split; [exact Hw|]. simpl.
      rewrite (Hloaded h Hh). congruence. }
    intros h Hh (Ha & Hw & Hc).
    split; [exact Ha|]. split; [exact Hw|].
    simpl. intros Hf. destruct (Hc Hf) as (? & ? & ?). done.
  - (* Details *)
    unfold fetchPlaceDetails. destruct (hooks p !! j) as [h|]; [|done].
    destruct (negb _); [exact Hinv|].
    destruct (google_maps_places p); exact Hinv.
  - (* DetailsAnswer *)
    destruct (detailsQueries p !! q) as [query|] eqn:Hq; [|done].
    destruct (dq_answered query); [done|].
    unfold details_callback. rewrite Hq.
    destruct (google_maps_places p); exact Hinv.
  - (* Clear *)
    apply inv_upd_hook; [done|]. intros h Hh (Ha & Hw & Hc).
    split; [exact Ha|]. split; [exact Hw|].
    simpl. intros Hf. destruct (Hc Hf) as (? & ? & ?). done.
  - (* ScriptLoad *)
    destruct (document_head p !! k) as [s|]; [|done].
    destruct (is_pending _); [|done].
    apply (inv_resume k true
             (with_document_head _ (with_googleMapsApiLoaded true p))).
    exact Hinv.
  - (* ScriptError *)
    destruct (document_head p !! k) as [s|]; [|done].
    destruct (is_pending _); [|done].
    apply (inv_resume k false
             (with_console _ (with_document_head _ p))).
    exact Hinv.
  - (* Namespace *)
    exact Hinv.
Qed.

Lemma inv_run tr p : inv p → inv (run tr p).
Proof.
  revert p. induction tr as [|e tr IH]; intros p Hp; [done|].
  apply IH, inv_step, Hp.
Qed.

Lemma inert_upd_hook i j f p :
  inert i p →
  (j = i → ∀ h, failed h → failed (f h)) →
  inert i (upd_hook j f p).
Proof.
  intros (h & Hi & Hf & Hno) Hkeep. destruct (decide (j = i)) as [->|Hji].
  - exists (f h). split; [by apply upd_hook_lookup|]. split; [|done].
    by apply Hkeep.
  - exists h. split; [|done]. by rewrite upd_hook_lookup_ne.
Qed.

Lemma inert_fetchPredictions_func i j input p :
  inert i p → inert i (fetchPredictions_func j input p).
Proof.
  intros Hin. pose proof Hin as (h & Hi & Hf & Hno).
  unfold fetchPredictions_func.
  destruct (hooks p !! j) as [hj|] eqn:Hj; [|done].
  destruct (isGoogleMapsApiLoaded hj) eqn:Hl; simpl; [|done].
  destruct (bool_decide _); [done|].
  assert (Hji : j ≠ i).
  { intros ->. destruct Hf as (_ & _ & Hfl & _). congruence. }
  assert (H1 : inert i (upd_hook j (set_loading true) p))
    by (by apply inert_upd_hook).
  change (google_maps_places (upd_hook j (set_loading true) p))
    with (google_maps_places p).
  destruct (google_maps_places p); [|exact H1].
  destruct H1 as (h1 & Hi1 & Hf1 & Hno1).
  exists h1. split; [exact Hi1|]. split; [exact Hf1|].
  simpl. rewrite owned_snoc. intros [Ho|Ho]; [by apply Hno1|done].
Qed.

Lemma hooks_onMounted_ne j p i :
  j ≠ i → hooks (onMounted j p) !! i = hooks p !! i.
Proof.
  intros Hji. unfold onMounted, loadGoogleMapsApi.
  destruct (hooks p !! j) as [h|]; [|done].
  destruct (google_maps_places p); [by apply upd_hook_lookup_ne|].
  destruct (googleMapsApiLoaded p); by rewrite upd_hook_lookup_ne.
Qed.

Lemma predictionQueries_onMounted j p :
  predictionQueries (onMounted j p) = predictionQueries p.
Proof.
  unfold onMounted, loadGoogleMapsApi.
  destruct (hooks p !! j) as [h|]; [|done].
  destruct (google_maps_places p); [done|].
  by destruct (googleMapsApiLoaded p).
Qed.

(** No event brings an inert hook back. *)
Lemma inert_step e i p : inert i p → inert i (step e p).
Proof.
  intros Hin. pose proof Hin as (h & Hi & Hf & Hno).
  destruct e as [key o|j|j input|d|q results|j placeId|q place status|j|k|k|b];
    simpl.
  - (* Use *)
    exists h. split; [|done]. simpl. by apply lookup_app_l_Some.
  - (* Mount *)
    destruct (hooks p !! j) as [hj|] eqn:Hj; [|done].
    destruct (mounted hj) eqn:Hm; [done|].
    assert (Hji : j ≠ i).
    { intros ->. destruct Hf as (Hmi & _). congruence. }
    exists h. split; [|split; [done|]].
    + rewrite hooks_onMounted_ne by done. by rewrite upd_hook_lookup_ne.
    + by rewrite predictionQueries_onMounted.
  - (* Search *)
    unfold fetchPredictions. destruct (hooks p !! j) as [hj|]; [|done].
    destruct (debounced _ _ _ _) as [to tm].
    apply (inert_upd_hook i j _ (with_timers tm p)); [exact Hin|].
    by intros _ h0 Hh0.
  - (* Elapse *)
    apply (idle_ind (inert i)); [exact Hin|].
    intros j input p' Hp'. by apply inert_fetchPredictions_func.
  - (* PredictionsAnswer *)
    destruct (predictionQueries p !! q) as [query|] eqn:Hq; [|done].
    destruct (pq_answered query); [done|].
    unfold predictions_callback. rewrite Hq.
    assert (Hji : pq_hook query ≠ i).
    { intros Hown. apply Hno. exists query. split; [|done].
      by eapply list_elem_of_lookup_2. }
    apply inert_upd_hook; [|done]. apply inert_upd_hook; [|done].
    exists h. split; [done|]. split; [done|].
    simpl. by rewrite owned_answered.
  - (* Details *)
    unfold fetchPlaceDetails. destruct (hooks p !! j) as [hj|]; [|done].
    destruct (negb _); [exact Hin|].
    destruct (google_maps_places p); exact Hin.
  - (* DetailsAnswer *)
    destruct (detailsQueries p !! q) as [query|] eqn:Hq; [|done].
    destruct (dq_answered query); [done|].
    unfold details_callback. rewrite Hq.
    destruct (google_maps_places p); exact Hin.
  - (* Clear *)
    apply inert_upd_hook; [done|].
    intros _ h0 (? & ? & ? & ? & ?). by repeat split.
  - (* ScriptLoad *)
    destruct (document_head p !! k) as [s|]; [|done].
    destruct (is_pending _); [|done].
    exists h. split; [|done]. unfold script_onload. simpl.
    rewrite list_lookup_fmap, Hi. simpl. unfold resume.
    destruct Hf as (_ & Hw & _). rewrite Hw. by case_decide.
  - (* ScriptError *)
    destruct (document_head p !! k) as [s|]; [|done].
    destruct (is_pending _); [|done].
    exists h. split; [|done]. unfold script_onerror. simpl.
    rewrite list_lookup_fmap, Hi. simpl. unfold resume.
    destruct Hf as (_ & Hw & _). rewrite Hw. by case_decide.
  - (* Namespace *)
    exact Hin.
Qed.

Lemma inert_run tr i p : inert i p → inert i (run tr p).
Proof.
  revert p. induction tr as [|e tr IH]; intros p Hp; [done|].
  apply IH, inert_step, Hp.
Qed.

(** The [error] event of the script a mounted callback waits on leaves its
    hook inert. *)
Lemma inert_after_error i k p h s :
  inv p →
  hooks p !! i = Some h →
  awaiting h = Some k →
  document_head p !! k = Some s →
  load_promise s = Pending →
  inert i (step (ScriptError k) p).
Proof.
  intros Hinv Hi Hw Hk Hs. simpl. rewrite Hk, Hs. simpl.
  destruct (proj1 Hinv i h Hi) as (Ha & Hb & Hc).
  assert (Hl : isGoogleMapsApiLoaded h = false) by (apply Hb; by rewrite Hw).
  destruct (Hc Hl) as (Hp & Hlo & Hno).
  assert (Hm : mounted h = true).
  { destruct (mounted h) eqn:Hm; [done|].
    destruct (Ha eq_refl) as [_ Hn]. congruence. }
  exists (set_awaiting None h). split; [|split].
  - unfold script_onerror. simpl. rewrite list_lookup_fmap, Hi. simpl.
    unfold resume. by rewrite decide_True.
  - by repeat split.
  - exact Hno.
Qed.

(** C7.  Take a process that started from [start], a hook whose mounted
    callback is waiting on script [k], and let that script fire [error].
    Whatever happens afterwards, the hook's [isGoogleMapsApiLoaded] is false,
    its [predictions] are empty, it is not loading and the service has
    received no query from it; an invocation of its search function leaves
    the process as it is; and [fetchPlaceDetails] returns a promise already
    fulfilled with [undefined], handing no lookup to the service and
    throwing nothing. *)
Theorem load_failure_is_permanent (before after : list Event) (i k : nat)
    (h : Hook) (s : Script) :
  let p := run before start in
  hooks p !! i = Some h →
  awaiting h = Some k →
  document_head p !! k = Some s →
  load_promise s = Pending →
  let p' := run after (step (ScriptError k) p) in
  ∃ h',
    hooks p' !! i = Some h' ∧
    isGoogleMapsApiLoaded h' = false ∧
    predictions h' = [] ∧
    loading h' = false ∧
    (∀ q, q ∈ predictionQueries p' → pq_hook q ≠ i) ∧
    (∀ input, fetchPredictions_func i input p' = p') ∧
    (∀ placeId,
       fetchPlaceDetails i placeId p' =
         (length (promises p'),
          with_promises (promises p' ++ [Resolved None]) p')).
Proof.
  intros p Hi Hw Hk Hs p'.
  assert (Hinert : inert i p').
  { apply inert_run. apply (inert_after_error i k p h s); try done.
    apply inv_run, inv_start. }
  destruct Hinert as (h' & Hi' & (Hm & Hw' & Hl & Hp & Hlo) & Hno).
  exists h'. repeat split; try done.
  - intros q Hq Hown. apply Hno. by exists q.
  - intros input. unfold fetchPredictions_func. by rewrite Hi', Hl.
  - intros placeId. unfold fetchPlaceDetails. by rewrite Hi', Hl.
Qed.

(** The only component of a page is mounted, its script fails; then the user
    types, the debounce time passes, a place is asked for, and the namespace
    even shows up by other means. *)
Lemma load_failure_is_permanent_witness :
  let p' := run [Search 0 "123 Main"; Elapse 300; Details 0 "xyz";
                 Namespace true; Search 0 "123 Main St"; Elapse 300]
              (step (ScriptError 0) (run [Use "K1" None; Mount 0] start)) in
  ∃ h',
    hooks p' !! 0 = Some h' ∧
    isGoogleMapsApiLoaded h' = false ∧
    predictions h' = [] ∧
    predictionQueries p' = [] ∧
    promises p' = [Resolved None] ∧
    fetchPlaceDetails 0 "abc" p' =
      (1, with_promises [Resolved None; Resolved None] p').
Proof.
  intros p'.
  destruct (load_failure_is_permanent
              [Use "K1" None; Mount 0]
              [Search 0 "123 Main"; Elapse 300; Details 0 "xyz";
               Namespace true; Search 0 "123 Main St"; Elapse 300]
              0 0
              {| apiKey := "K1"; debounceTime := 300;
                 predictionOptions := ∅; libraries := ["places"%string];
                 language := "en"; predictions := []; loading := false;
                 isGoogleMapsApiLoaded := false; addressInfo := None;
                 timeout := None; mounted := true; awaiting := Some 0 |}
              {| src := script_src "K1" ["places"%string] "en";
                 async := true; defer := true; load_promise := Pending |}
              eq_refl eq_refl eq_refl eq_refl)
    as (h' & Hi & Hl & Hp & _ & _ & _ & Hd).
  exists h'. split; [exact Hi|]. split; [exact Hl|]. split; [exact Hp|].
  split; [reflexivity|]. split; [reflexivity|]. apply (Hd "abc"%string).
Defined.

(* ===================================================================== *)
(** * What the debounced function never does *)
(* ===================================================================== *)

Lemma debounce_fired_sublist {A St : Type} (func : A → St → St) (wait : Z)
    (l : list (@Debounce.Action A)) (s : @Debounce.state A St) :
  Debounce.wf s →
  ∃ fired,
    Debounce.target (Debounce.run func wait l s) =
      foldl (λ s x, func x s) (Debounce.target s) fired ∧
    fired `sublist_of` (payload <$> queue (Debounce.timers s)) ++ invoked l.
Proof.
  revert s. induction l as [|[x|d] l IH]; intros s Hs.
  - exists []. split; [reflexivity|]. apply sublist_nil_l.
  - rewrite debounce_run_cons.
    destruct (IH _ (wf_act func wait (Debounce.Invoke x) s Hs))
      as (fired & Ht & Hsub).
    rewrite act_Invoke in Ht, Hsub |- * by done. simpl in Ht, Hsub.
    exists fired. split; [done|].
    by apply sublist_inserts_l.
  - rewrite debounce_run_cons.
    destruct (IH _ (wf_act func wait (Debounce.Idle d) s Hs))
      as (fired & Ht & Hsub).
    destruct Hs as [Hf [Hq | (u & Hq & Hto & Hu)]].
    + rewrite act_Idle_empty in Ht, Hsub |- * by done. simpl in Ht, Hsub.
      exists fired. split; [done|]. by rewrite Hq.
    + destruct u as [h t x].
      rewrite (act_Idle_pending func wait d h t x) in Ht, Hsub |- * by done.
      rewrite Hq. simpl.
      destruct (t <=? clock (Debounce.timers s) + d); simpl in Ht, Hsub.
      * exists (x :: fired). split; [done|]. by apply sublist_skip.
      * exists fired. by split.
Qed.

(** X1.  Whatever the calls and the pauses between them, the wrapped
    function is invoked only with arguments the debounced function was
    called with, in the order of those calls and at most once for each call:
    the invocations form a subsequence of the calls, so there are never more
    invocations than calls. *)
Theorem debounce_only_forwards_calls {A St : Type} (func : A → St → St)
    (wait : Z) (s0 : St) (l : list (@Debounce.Action A)) :
  ∃ fired,
    Debounce.target (Debounce.run func wait l (Debounce.debounce s0)) =
      foldl (λ s x, func x s) s0 fired ∧
    fired `sublist_of` invoked l ∧
    length fired ≤ length (invoked l).
Proof.
  destruct (debounce_fired_sublist func wait l (Debounce.debounce s0)
              (debounce_wf s0)) as (fired & Ht & Hsub).
  exists fired. split; [done|]. split; [done|]. by apply sublist_length.
Qed.

(* ===================================================================== *)
(** * How one event changes one hook *)
(* ===================================================================== *)

Lemma hook_fetchPredictions_func j input p i h :
  hooks p !! i = Some h →
  hooks (fetchPredictions_func j input p) !! i = Some h ∨
  (isGoogleMapsApiLoaded h = true ∧
   hooks (fetchPredictions_func j input p) !! i = Some (set_loading true h)).
Proof.
  intros Hi. unfold fetchPredictions_func.
  destruct (hooks p !! j) as [hj|] eqn:Hj; [|by left].
  destruct (isGoogleMapsApiLoaded hj) eqn:Hl; simpl; [|by left].
  destruct (bool_decide _); [by left|].
  assert (H1 : hooks (upd_hook j (set_loading true) p) !! i = Some h ∨
               (isGoogleMapsApiLoaded h = true ∧
                hooks (upd_hook j (set_loading true) p) !! i =
                  Some (set_loading true h))).
  { destruct (decide (j = i)) as [->|Hji].
    - right. rewrite Hi in Hj. injection Hj as <-.
      split; [done|]. by apply upd_hook_lookup.
    - left. by rewrite upd_hook_lookup_ne. }
  change (google_maps_places (upd_hook j (set_loading true) p))
    with (google_maps_places p).
  destruct (google_maps_places p); exact H1.
Qed.

(** Every event leaves hook [i] in place, either as it was or changed in one
    of the ways of [hook_change]. *)
Lemma hook_step_cases e p i h :
  hooks p !! i = Some h →
  ∃ h', hooks (step e p) !! i = Some h' ∧ (h' = h ∨ hook_change p i h e h').
Proof.
  intros Hi.
  destruct e as [key o|j|j input|d|q results|j placeId|q place status|j|k|k|b];
    simpl.
  - (* Use *)
    exists h. split; [|by left]. simpl. by apply lookup_app_l_Some.
  - (* Mount *)
    destruct (hooks p !! j) as [hj|] eqn:Hj; [|by eauto].
    destruct (mounted hj) eqn:Hm; [by eauto|].
    destruct (decide (j = i)) as [->|Hji].
    2:{ exists h. split; [|by left].
        rewrite hooks_onMounted_ne by done. by rewrite upd_hook_lookup_ne. }
    rewrite Hi in Hj. injection Hj as <-.
    set (p0 := upd_hook i (set_mounted true) p).
    assert (Hi0 : hooks p0 !! i = Some (set_mounted true h))
      by (by apply upd_hook_lookup).
    unfold onMounted. rewrite Hi0.
    change (google_maps_places p0) with (google_maps_places p).
    destruct (google_maps_places p) eqn:Hg.
    { eexists. split; [by apply upd_hook_lookup|].
      right. apply change_mount_loaded; [done|by left]. }
    unfold loadGoogleMapsApi.
    change (googleMapsApiLoaded p0) with (googleMapsApiLoaded p).
    destruct (googleMapsApiLoaded p) eqn:Hf.
    { eexists. split; [by apply upd_hook_lookup|].
      right. apply change_mount_loaded; [done|by right]. }
    eexists. split.
    { apply (upd_hook_lookup i _ (with_document_head _ p0)). exact Hi0. }
    right. exact (change_mount_waiting p i h Hm Hg Hf).
  - (* Search *)
    unfold fetchPredictions. destruct (hooks p !! j) as [hj|] eqn:Hj; [|by eauto].
    destruct (debounced _ _ _ _) as [to tm].
    destruct (decide (j = i)) as [->|Hji].
    + eexists. split.
      { apply (upd_hook_lookup i _ (with_timers tm p)). exact Hi. }
      right. apply change_search.
    + exists h. split; [|by left].
      rewrite upd_hook_lookup_ne by done. done.
  - (* Elapse *)
    assert (Hidle : hooks (idle d p) !! i = Some h ∨
                    (isGoogleMapsApiLoaded h = true ∧
                     hooks (idle d p) !! i = Some (set_loading true h))).
    { apply (idle_ind (λ p', hooks p' !! i = Some h ∨
               (isGoogleMapsApiLoaded h = true ∧
                hooks p' !! i = Some (set_loading true h)))); [by left|].
      intros j input p' [Hp'|[Hl Hp']].
      - by apply hook_fetchPredictions_func.
      - right. split; [done|].
        destruct (hook_fetchPredictions_func j input p' i _ Hp')
          as [H|[_ H]]; exact H. }
    destruct Hidle as [H|[Hl H]].
    + exists h. by split; [|left].
    + eexists. split; [exact H|]. right. by apply change_elapse.
  - (* PredictionsAnswer *)
    destruct (predictionQueries p !! q) as [query|] eqn:Hq; [|by eauto].
    destruct (pq_answered query) eqn:Ha; [by eauto|].
    unfold predictions_callback. rewrite Hq.
    destruct (decide (pq_hook query = i)) as [Hown|Hown].
    + eexists. split.
      { rewrite Hown. apply upd_hook_lookup.
        apply (upd_hook_lookup i _ (with_predictionQueries _ p)). exact Hi. }
      right. by eapply change_answer.
    + exists h. split; [|by left]. by rewrite !upd_hook_lookup_ne.
  - (* Details *)
    exists h. split; [|by left].
    unfold fetchPlaceDetails. destruct (hooks p !! j) as [hj|]; [|done].
    destruct (negb _); [done|]. by destruct (google_maps_places p).
  - (* DetailsAnswer *)
    exists h. split; [|by left].
    destruct (detailsQueries p !! q) as [query|] eqn:Hq; [|done].
    destruct (dq_answered query); [done|].
    unfold details_callback. rewrite Hq.
    by destruct (google_maps_places p).
  - (* Clear *)
    destruct (decide (j = i)) as [->|Hji].
    + eexists. split; [by apply (upd_hook_lookup i _ p)|].
      right. apply change_clear.
    + exists h. split; [|by left].
      by rewrite list_lookup_alter_ne.
  - (* ScriptLoad *)
    destruct (document_head p !! k) as [s|] eqn:Hk; [|by eauto].
    destruct (is_pending (load_promise s)) eqn:Hs; [|by eauto].
    apply is_pending_true in Hs.
    unfold script_onload. simpl. rewrite list_lookup_fmap, Hi. simpl.
    unfold resume. case_decide as Hw; [|by eauto].
    eexists. split; [done|]. right. by eapply change_load.
  - (* ScriptError *)
    destruct (document_head p !! k) as [s|] eqn:Hk; [|by eauto].
    destruct (is_pending (load_promise s)) eqn:Hs; [|by eauto].
    apply is_pending_true in Hs.
    unfold script_onerror. simpl. rewrite list_lookup_fmap, Hi. simpl.
    unfold resume. case_decide as Hw; [|by eauto].
    eexists. split; [done|]. right. by eapply change_error.
  - (* Namespace *)
    by eauto.
Qed.

(** A hook that appears with an event is a new hook, as
    [useGooglePlacesAutocomplete] makes it. *)
Lemma hook_origin e p i h' :
  hooks p !! i = None →
  hooks (step e p) !! i = Some h' →
  (∃ key o, e = Use key o) ∧ i = length (hooks p) ∧
  predictions h' = [] ∧ loading h' = false ∧
  isGoogleMapsApiLoaded h' = false ∧ addressInfo h' = None ∧
  timeout h' = None ∧ mounted h' = false ∧ awaiting h' = None.
Proof.
  intros Hnone Hsome.
  destruct (hook_flag_step e p i) as [He|[(_&_&key&o&->)|(He&_)]].
  - unfold hook_flag in He. by rewrite Hnone, Hsome in He.
  - split; [by eauto|]. simpl in *.
    apply lookup_app_Some in Hsome as [Hsome|[Hlen Hsome]]; [congruence|].
    destruct (i - length (hooks p)) as [|n] eqn:Hn; [|done].
    simpl in Hsome. injection Hsome as <-.
    split; [|done]. apply lookup_ge_None in Hnone. lia.
  - unfold hook_flag in He. by rewrite Hnone in He.
Qed.

(* ===================================================================== *)
(** * The refs nobody writes, and the ones only an answer writes *)
(* ===================================================================== *)

Lemma addressInfo_step e p :
  Forall (λ h, addressInfo h = None) (hooks p) →
  Forall (λ h, addressInfo h = None) (hooks (step e p)).
Proof.
  rewrite !Forall_lookup. intros Hp i h' Hi'.
  destruct (hooks p !! i) as [h|] eqn:Hi.
  - destruct (hook_step_cases e p i h Hi) as (h'' & Hi'' & Hch).
    rewrite Hi' in Hi''. injection Hi'' as <-.
    specialize (Hp i h Hi). simpl in Hp.
    destruct Hch as [->|Hch]; [done|]. by destruct Hch.
  - by destruct (hook_origin e p i h' Hi Hi') as (_&_&_&_&_&?&_).
Qed.

(** X2.  The hook returns the ref [addressInfo], created as [ref(null)], and
    no closure of the hook ever assigns it: along every run from the start
    of the process, [addressInfo] of every hook is [null]. *)
Theorem addressInfo_is_always_null (tr : list Event) :
  Forall (λ h, addressInfo h = None) (hooks (run tr start)).
Proof.
  assert (Hgen : ∀ p, Forall (λ h, addressInfo h = None) (hooks p) →
                      Forall (λ h, addressInfo h = None) (hooks (run tr p))).
  { induction tr as [|e tr IH]; intros p Hp; [done|].
    apply IH, addressInfo_step, Hp. }
  apply Hgen. constructor.
Qed.

Lemma loading_step e p i h h' :
  hooks p !! i = Some h →
  loading h = true →
  hooks (step e p) !! i = Some h' →
  loading h' = false →
  ∃ q results query,
    e = PredictionsAnswer q results ∧
    predictionQueries p !! q = Some query ∧
    pq_hook query = i ∧ pq_answered query = false.
Proof.
  intros Hi Hl Hi' Hl'.
  destruct (hook_step_cases e p i h Hi) as (h'' & Hi'' & Hch).
  rewrite Hi' in Hi''. injection Hi'' as <-.
  destruct Hch as [->|Hch]; [congruence|].
  destruct Hch; simpl in Hl'; try congruence. eauto 10.
Qed.

(** X3.  Once [loading] of a hook is true, the only event that makes it
    false is the service answering a query of that hook that it had not
    answered yet.  So while the service answers nothing, [loading] stays
    true, whatever else happens: typing, idle time, [resetPredictions],
    place lookups, script events. *)
Theorem loading_is_cleared_only_by_an_answer (p : Process) (i : nat)
    (h : Hook) :
  hooks p !! i = Some h →
  loading h = true →
  (∀ e h',
     hooks (step e p) !! i = Some h' →
     loading h' = false →
     ∃ q results query,
       e = PredictionsAnswer q results ∧
       predictionQueries p !! q = Some query ∧
       pq_hook query = i ∧ pq_answered query = false) ∧
  (∀ tr,
     forallb (λ e, negb (is_answer e)) tr = true →
     ∃ h', hooks (run tr p) !! i = Some h' ∧ loading h' = true).
Proof.
  intros Hi Hl. split.
  - intros e h'. by apply (loading_step e p i h h').
  - intros tr. revert p h Hi Hl.
    induction tr as [|e tr IH]; intros p h Hi Hl Htr; [by eauto|].
    simpl in Htr. apply andb_true_iff in Htr as [He Htr].
    destruct (hook_step_cases e p i h Hi) as (h1 & Hi1 & _).
    destruct (loading h1) eqn:Hl1; [by apply (IH _ h1)|].
    destruct (loading_step e p i h h1 Hi Hl Hi1 Hl1) as (q & r & ? & -> & _).
    done.
Qed.

(** The hook of [busy] is loading; the service stays silent. *)
Lemma loading_is_cleared_only_by_an_answer_witness :
  ∃ h',
    hooks (run [Clear 0; Search 0 "abc"; Elapse 1000; Details 0 "xyz";
                Namespace false; Elapse 1000] busy) !! 0 = Some h' ∧
    loading h' = true.
Proof.
  apply (proj2 (loading_is_cleared_only_by_an_answer busy 0 busy_hook
                  ltac:(vm_compute; reflexivity) eq_refl)).
  reflexivity.
Defined.

(* ===================================================================== *)
(** * Answers that arrive out of order *)
(* ===================================================================== *)

Lemma predictions_callback_hook q results p query h :
  predictionQueries p !! q = Some query →
  hooks p !! pq_hook query = Some h →
  hooks (predictions_callback q results p) !! pq_hook query =
    Some (set_loading false (set_predictions (default [] results) h)) ∧
  predictionQueries (predictions_callback q results p) =
    alter answer_prediction q (predictionQueries p).
Proof.
  intros Hq Hh. unfold predictions_callback. rewrite Hq. split; [|done].
  apply upd_hook_lookup.
  apply (upd_hook_lookup _ _ (with_predictionQueries _ p)). exact Hh.
Qed.

(** X4.  The callback of a prediction query applies its results whatever
    was asked since: of two outstanding queries of one hook, the one answered
    last decides [predictions], also when it is the one that was sent first;
    and [loading] is false from the first answer on, although the other
    query is still outstanding. *)
Theorem last_answer_wins (p : Process) (i q1 q2 : nat)
    (query1 query2 : PredictionQuery) (h : Hook)
    (r1 r2 : option (list Prediction)) :
  hooks p !! i = Some h →
  q1 < q2 →
  predictionQueries p !! q1 = Some query1 →
  predictionQueries p !! q2 = Some query2 →
  pq_hook query1 = i →
  pq_hook query2 = i →
  pq_answered query1 = false →
  pq_answered query2 = false →
  let p1 := step (PredictionsAnswer q2 r2) p in
  let p2 := step (PredictionsAnswer q1 r1) p1 in
  (∃ h1, hooks p1 !! i = Some h1 ∧
         predictions h1 = default [] r2 ∧ loading h1 = false) ∧
  pq_answered <$> predictionQueries p1 !! q1 = Some false ∧
  (∃ h2, hooks p2 !! i = Some h2 ∧
         predictions h2 = default [] r1 ∧ loading h2 = false).
Proof.
  intros Hi Hlt Hq1 Hq2 Ho1 Ho2 Ha1 Ha2 p1 p2.
  pose proof Hi as Hi2. rewrite <- Ho2 in Hi2.
  destruct (predictions_callback_hook q2 r2 p query2 h Hq2 Hi2) as [Hh1 Hqs1].
  rewrite Ho2 in Hh1.
  assert (Hp1 : p1 = predictions_callback q2 r2 p).
  { unfold p1. simpl. by rewrite Hq2, Ha2. }
  assert (Hq1' : predictionQueries p1 !! q1 = Some query1).
  { rewrite Hp1, Hqs1, list_lookup_alter_ne by lia. done. }
  split; [|split].
  - rewrite Hp1. eexists. split; [exact Hh1|]. done.
  - rewrite Hq1'. simpl. by rewrite Ha1.
  - assert (Hp2 : p2 = predictions_callback q1 r1 p1).
    { unfold p2. simpl. by rewrite Hq1', Ha1. }
    rewrite Hp1 in Hq1'. rewrite <- Ho1 in Hh1.
    destruct (predictions_callback_hook q1 r1 _ query1 _ Hq1' Hh1)
      as [Hh2 _].
    rewrite Ho1 in Hh2.
    rewrite Hp2, Hp1. eexists. split; [exact Hh2|]. done.
Qed.

(** The newer query is answered first, the older one afterwards: the
    predictions shown are those for the older text. *)
Lemma last_answer_wins_witness :
  let A := {| description := "A St"; place_id := "a" |} in
  let B := {| description := "Abbey Rd"; place_id := "b" |} in
  ∃ h2,
    hooks (step (PredictionsAnswer 0 (Some [A]))
             (step (PredictionsAnswer 1 (Some [B])) two_outstanding)) !! 0
      = Some h2 ∧
    predictions h2 = [A] ∧ loading h2 = false.
Proof.
  intros A B.
  apply (last_answer_wins two_outstanding 0 0 1
           {| pq_hook := 0; pq_request := prediction_request "a" ∅;
              pq_answered := false |}
           {| pq_hook := 0; pq_request := prediction_request "ab" ∅;
              pq_answered := false |}
           (set_loading true (set_timeout (Some 2) ready_hook))
           (Some [A]) (Some [B])
           ltac:(vm_compute; reflexivity) ltac:(lia)
           ltac:(vm_compute; reflexivity) ltac:(vm_compute; reflexivity)
           eq_refl eq_refl eq_refl eq_refl).
Defined.

(* ===================================================================== *)
(** * One timer table, many hooks *)
(* ===================================================================== *)

Lemma enqueue_perm {A : Type} (t : Timer A) (q : list (Timer A)) :
  enqueue t q ≡ₚ t :: q.
Proof.
  induction q as [|u q IH]; simpl; [done|].
  destruct (due u <=? due t); [|done].
  rewrite IH. apply perm_swap.
Qed.

Lemma take_due_app {A : Type} (t : nat) (q : list (Timer A)) :
  q = (take_due t q).1 ++ (take_due t q).2.
Proof.
  induction q as [|u q IH]; simpl; [done|].
  destruct (due u <=? t); [|done].
  destruct (take_due t q) as [f r]. simpl in *. by f_equal.
Qed.

Lemma debounced_spec {A : Type} (wait : Z) (to : option nat) (x : A)
    (tm : Timers A) :
  debounced wait to x tm =
    (Some (fresh tm),
     {| clock := clock tm; fresh := S (fresh tm);
        queue := enqueue (mkTimer (fresh tm) (clock tm + timer_delay wait) x)
                   (match to with
                    | Some h => if truthy_handle h
                                then filter (λ t, handle t ≠ h) (queue tm)
                                else queue tm
                    | None => queue tm
                    end) |}).
Proof.
  unfold debounced, setTimeout, clearTimeout.
  destruct to as [h|]; [destruct (truthy_handle h)|]; reflexivity.
Qed.

Lemma timers_fetchPredictions_func j input p :
  timers (fetchPredictions_func j input p) = timers p.
Proof.
  unfold fetchPredictions_func.
  destruct (hooks p !! j) as [h|]; [|done].
  destruct (_ || _); [done|].
  by destruct (google_maps_places _).
Qed.

Lemma timers_idle d p : timers (idle d p) = (elapse d (timers p)).2.
Proof.
  apply (idle_ind (λ p', timers p' = (elapse d (timers p)).2)); [done|].
  intros j input p' <-. apply timers_fetchPredictions_func.
Qed.

(** Only a call of the debounced function adds a timer or hands out a
    handle; idle time takes timers off the table. *)
Lemma timers_step_not_search e p :
  (∀ j input, e ≠ Search j input) →
  fresh (timers (step e p)) = fresh (timers p) ∧
  queue (timers (step e p)) `sublist_of` queue (timers p).
Proof.
  intros Hns.
  destruct e as [key o|j|j input|d|q results|j placeId|q place status|j|k|k|b];
    simpl; try done.
  - destruct (hooks p !! j) as [h|]; [|done].
    destruct (mounted h); [done|].
    unfold onMounted, loadGoogleMapsApi.
    destruct (hooks _ !! j); [|done].
    destruct (google_maps_places _); [done|].
    by destruct (googleMapsApiLoaded _).
  - by destruct (Hns j input).
  - rewrite timers_idle. unfold elapse.
    rewrite (take_due_app (clock (timers p) + d) (queue (timers p))) at 3.
    destruct (take_due _ _) as [f r]. simpl. split; [done|].
    by apply sublist_inserts_l.
  - destruct (predictionQueries p !! q) as [query|] eqn:Hq; [|done].
    destruct (pq_answered query); [done|].
    unfold predictions_callback. by rewrite Hq.
  - unfold fetchPlaceDetails. destruct (hooks p !! j) as [h|]; [|done].
    destruct (negb _); [done|]. by destruct (google_maps_places p).
  - destruct (detailsQueries p !! q) as [query|] eqn:Hq; [|done].
    destruct (dq_answered query); [done|].
    unfold details_callback. rewrite Hq.
    by destruct (google_maps_places p).
  - destruct (document_head p !! k) as [s|]; [|done].
    by destruct (is_pending _).
  - destruct (document_head p !! k) as [s|]; [|done].
    by destruct (is_pending _).
Qed.

Lemma timeout_step e p i h' :
  (∀ j input, e ≠ Search j input) →
  hooks (step e p) !! i = Some h' →
  (∃ h, hooks p !! i = Some h ∧ timeout h' = timeout h) ∨
  (hooks p !! i = None ∧ timeout h' = None).
Proof.
  intros Hns Hi'. destruct (hooks p !! i) as [h|] eqn:Hi.
  - left. exists h. split; [done|].
    destruct (hook_step_cases e p i h Hi) as (h'' & Hi'' & Hch).
    rewrite Hi' in Hi''. injection Hi'' as <-.
    destruct Hch as [->|Hch]; [done|].
    destruct Hch; try done. by destruct (Hns i input).
  - right. split; [done|].
    by destruct (hook_origin e p i h' Hi Hi') as (_&_&_&_&_&_&?&_).
Qed.

Lemma length_hooks_step e p : length (hooks p) ≤ length (hooks (step e p)).
Proof.
  destruct (decide (length (hooks p) ≤ length (hooks (step e p))))
    as [|Hlt]; [done|].
  destruct (lookup_lt_is_Some_2 (hooks p) (length (hooks (step e p))))
    as [h Hi]; [lia|].
  destruct (hook_step_cases e p _ h Hi) as (h' & Hi' & _).
  apply lookup_lt_Some in Hi'. lia.
Qed.

Lemma timers_inv_start : timers_inv start.
Proof.
  split; [simpl; lia|]. split; [|split].
  - intros t Ht. simpl in Ht. by apply elem_of_nil in Ht.
  - simpl. constructor.
  - intros i h t Hi. simpl in Hi. by rewrite lookup_nil in Hi.
Qed.

Lemma timers_inv_step e p : timers_inv p → timers_inv (step e p).
Proof.
  intros (Hf & Hb & Hnd & Hto).
  assert (Hcase : (∃ j input, e = Search j input) ∨
                  (∀ j input, e ≠ Search j input)).
  { destruct e; try (right; intros; discriminate). left; eauto. }
  destruct Hcase as [(j & input & ->)|Hns'].
  - (* a call of the debounced function of hook [j] *)
    simpl. unfold fetchPredictions.
    destruct (hooks p !! j) as [hj|] eqn:Hj; [|done].
    rewrite debounced_spec.
    set (q1 := match timeout hj with
               | Some h => if truthy_handle h
                           then filter (λ t, handle t ≠ h) (queue (timers p))
                           else queue (timers p)
               | None => queue (timers p)
               end).
    set (new := mkTimer (fresh (timers p))
                  (clock (timers p) + timer_delay (debounceTime hj)) (j, input)).
    assert (Hq1 : q1 `sublist_of` queue (timers p)).
    { unfold q1. destruct (timeout hj) as [h|]; [|done].
      destruct (truthy_handle h); [apply sublist_filter|done]. }
    assert (Hmine : ∀ t, t ∈ q1 → (payload t).1 ≠ j).
    { intros t Ht Hpay.
      pose proof (elem_of_sublist _ _ _ Ht Hq1) as Ht'.
      pose proof (Hto j hj t Hj Ht' Hpay) as Hh.
      unfold q1 in Ht. rewrite Hh in Ht.
      destruct (Hb t Ht') as [[Hpos _] _].
      unfold truthy_handle in Ht.
      destruct (Nat.eqb_spec (handle t) 0) as [|_]; [lia|]. simpl in Ht.
      apply list_elem_of_filter in Ht as [Hne _]. done. }
    split; [simpl; lia|]. split; [|split]; simpl.
    + intros t Ht. rewrite enqueue_perm in Ht.
      rewrite length_alter.
      apply elem_of_cons in Ht as [->|Ht].
      * simpl. split; [lia|]. by eapply lookup_lt_Some.
      * destruct (Hb t (elem_of_sublist _ _ _ Ht Hq1)). lia.
    + rewrite enqueue_perm, fmap_cons. apply NoDup_cons. split.
      * simpl. intros Hin. apply list_elem_of_fmap in Hin as (t & Hh & Ht).
        destruct (Hb t (elem_of_sublist _ _ _ Ht Hq1)). lia.
      * eapply sublist_NoDup; [exact Hnd|]. by apply fmap_sublist.
    + intros i h t Hi Ht Hpay. rewrite enqueue_perm in Ht.
      rewrite list_lookup_alter in Hi.
      apply elem_of_cons in Ht as [->|Ht].
      * simpl in Hpay. subst i. rewrite decide_True in Hi by done.
        rewrite Hj in Hi. simpl in Hi. by injection Hi as <-.
      * case_decide as Hji.
        { subst i. by destruct (Hmine t Ht). }
        apply (Hto i h t Hi); [|done]. by eapply elem_of_sublist.
  - (* any other event *)
    destruct (timers_step_not_search e p Hns') as [Hfr Hsub].
    pose proof (length_hooks_step e p) as Hlen.
    split; [by rewrite Hfr|]. split; [|split].
    + intros t Ht. rewrite Hfr.
      destruct (Hb t (elem_of_sublist _ _ _ Ht Hsub)). lia.
    + eapply sublist_NoDup; [exact Hnd|]. by apply fmap_sublist.
    + intros i h' t Hi' Ht Hpay.
      pose proof (elem_of_sublist _ _ _ Ht Hsub) as Ht'.
      destruct (timeout_step e p i h' Hns' Hi') as [(h & Hi & ->)|[Hnone _]].
      * by apply (Hto i h t).
      * destruct (Hb t Ht') as [_ Hlt]. apply lookup_ge_None in Hnone. lia.
Qed.

Lemma timers_inv_run tr p : timers_inv p → timers_inv (run tr p).
Proof.
  revert p. induction tr as [|e tr IH]; intros p Hp; [done|].
  apply IH, timers_inv_step, Hp.
Qed.

Lemma scheduled_at_most_one i p : timers_inv p → length (scheduled i p) ≤ 1.
Proof.
  intros (Hf & Hb & Hnd & Hto). unfold scheduled.
  assert (Hsub : filter (λ t, (payload t).1 = i) (queue (timers p))
                   `sublist_of` queue (timers p)) by apply sublist_filter.
  assert (Hnd' : NoDup (handle <$>
                          filter (λ t, (payload t).1 = i) (queue (timers p)))).
  { eapply sublist_NoDup; [exact Hnd|]. by apply fmap_sublist. }
  assert (Hsame : ∀ t1 t2,
            t1 ∈ filter (λ t, (payload t).1 = i) (queue (timers p)) →
            t2 ∈ filter (λ t, (payload t).1 = i) (queue (timers p)) →
            handle t1 = handle t2).
  { intros t1 t2 [Hp1 Ht1]%list_elem_of_filter [Hp2 Ht2]%list_elem_of_filter.
    destruct (Hb t1 Ht1) as [_ Hlt]. rewrite Hp1 in Hlt.
    destruct (lookup_lt_is_Some_2 _ _ Hlt) as [h Hi].
    pose proof (Hto i h t1 Hi Ht1 Hp1) as H1.
    pose proof (Hto i h t2 Hi Ht2 Hp2) as H2. congruence. }
  destruct (filter _ _) as [|t1 [|t2 l]]; simpl; [lia|lia|].
  exfalso. rewrite !fmap_cons in Hnd'.
  apply NoDup_cons in Hnd' as [Hnotin _]. apply Hnotin.
  rewrite (Hsame t1 t2).
  - apply elem_of_cons. by left.
  - apply elem_of_cons. by left.
  - apply elem_of_cons. right. apply elem_of_cons. by left.
Qed.

Lemma length_sent_fetchPredictions_func i j input p :
  length (sent i (fetchPredictions_func j input p)) ≤
    length (sent i p) + (if decide (j = i) then 1 else 0).
Proof.
  unfold fetchPredictions_func.
  destruct (hooks p !! j) as [h|]; [|lia].
  destruct (_ || _); [lia|].
  change (google_maps_places (upd_hook j (set_loading true) p))
    with (google_maps_places p).
  destruct (google_maps_places p); [|unfold sent; simpl; lia].
  unfold sent. simpl. rewrite filter_app, length_app, filter_cons, filter_nil.
  simpl. destruct (decide (j = i)); simpl; lia.
Qed.

Lemma length_sent_fold i (fired : list (nat * string)) p :
  length (sent i (foldl (λ p c, fetchPredictions_func c.1 c.2 p) p fired)) ≤
    length (sent i p) + length (filter (λ c, c.1 = i) fired).
Proof.
  revert p. induction fired as [|[j input] fired IH]; intros p; simpl; [lia|].
  etrans; [apply IH|].
  pose proof (length_sent_fetchPredictions_func i j input p) as Hstep.
  rewrite filter_cons. simpl. destruct (decide (j = i)); simpl; lia.
Qed.

Lemma length_filter_payload i (f : list (Timer (nat * string))) :
  length (filter (λ c : nat * string, c.1 = i) (payload <$> f)) =
    length (filter (λ t, (payload t).1 = i) f).
Proof.
  induction f as [|t f IH]; [done|].
  rewrite fmap_cons, !filter_cons.
  destruct (decide ((payload t).1 = i)); simpl; by rewrite IH.
Qed.

(** X5.  All hooks of a process schedule on one timer table, and still:
    along every run from the start, at most one invocation of the search
    function of any one hook is scheduled at any time; so an idle period,
    however long, sends at most one query per hook. *)
Theorem one_search_scheduled_per_hook (tr : list Event) (i d : nat) :
  length (scheduled i (run tr start)) ≤ 1 ∧
  length (sent i (idle d (run tr start))) ≤
    length (sent i (run tr start)) + 1.
Proof.
  assert (Hinv : timers_inv (run tr start))
    by apply timers_inv_run, timers_inv_start.
  pose proof (scheduled_at_most_one i _ Hinv) as Hone.
  split; [done|].
  set (p := run tr start) in *.
  unfold idle, elapse.
  pose proof (take_due_app (clock (timers p) + d) (queue (timers p))) as Happ.
  destruct (take_due _ _) as [f r]. simpl in Happ.
  etrans; [apply length_sent_fold|].
  change (sent i (with_timers _ p)) with (sent i p).
  rewrite length_filter_payload.
  unfold scheduled in Hone. rewrite Happ, filter_app, length_app in Hone.
  lia.
Qed.

(* ===================================================================== *)
(** * Mounting *)
(* ===================================================================== *)

(** X6.  When a component is mounted on a page where [google.maps.places] is
    already there, or where [googleMapsApiLoaded] is set, its hook is loaded
    by the end of that task and nothing else changes: no script is inserted
    and [googleMapsApiLoaded] is not written. *)
Theorem mount_with_the_API_there (i : nat) (p : Process) (h : Hook) :
  hooks p !! i = Some h →
  mounted h = false →
  google_maps_places p = true ∨ googleMapsApiLoaded p = true →
  step (Mount i) p =
    with_hooks
      (<[i:=set_isGoogleMapsApiLoaded true (set_mounted true h)]> (hooks p)) p ∧
  document_head (step (Mount i) p) = document_head p ∧
  googleMapsApiLoaded (step (Mount i) p) = googleMapsApiLoaded p.
Proof.
  intros Hi Hm Hor.
  assert (Hstep : step (Mount i) p =
            with_hooks
              (<[i:=set_isGoogleMapsApiLoaded true (set_mounted true h)]>
                 (hooks p)) p).
  { simpl. rewrite Hi, Hm.
    set (p0 := upd_hook i (set_mounted true) p).
    assert (Hi0 : hooks p0 !! i = Some (set_mounted true h))
      by (by apply upd_hook_lookup).
    assert (Hgoal : upd_hook i (set_isGoogleMapsApiLoaded true) p0 =
              with_hooks
                (<[i:=set_isGoogleMapsApiLoaded true (set_mounted true h)]>
                   (hooks p)) p).
    { unfold upd_hook. rewrite (alter_as_insert _ _ _ _ Hi0).
      unfold p0, upd_hook. simpl.
      rewrite (alter_as_insert _ _ _ _ Hi).
      by rewrite list_insert_insert_eq. }
    unfold onMounted. rewrite Hi0.
    change (google_maps_places p0) with (google_maps_places p).
    destruct (google_maps_places p) eqn:Hg; [exact Hgoal|].
    destruct Hor as [|Hflag]; [done|].
    unfold loadGoogleMapsApi.
    change (googleMapsApiLoaded p0) with (googleMapsApiLoaded p).
    rewrite Hflag. exact Hgoal. }
  rewrite Hstep. done.
Qed.

Lemma mount_with_the_API_there_witness :
  hook_flag 2 (run [Use "K1" None; Mount 0; ScriptLoad 0;
                    Use "K2" None; Use "K3" None; Mount 2] start) = Some true ∧
  length (document_head
            (run [Use "K1" None; Mount 0; ScriptLoad 0;
                  Use "K2" None; Use "K3" None; Mount 2] start)) = 1.
Proof.
  change (run [Use "K1" None; Mount 0; ScriptLoad 0;
               Use "K2" None; Use "K3" None; Mount 2] start)
    with (step (Mount 2)
            (run [Use "K1" None; Mount 0; ScriptLoad 0;
                  Use "K2" None; Use "K3" None] start)).
  destruct (mount_with_the_API_there 2
              (run [Use "K1" None; Mount 0; ScriptLoad 0;
                    Use "K2" None; Use "K3" None] start)
              {| apiKey := "K3"; debounceTime := 300; predictionOptions := ∅;
                 libraries := ["places"%string]; language := "en";
                 predictions := []; loading := false;
                 isGoogleMapsApiLoaded := false; addressInfo := None;
                 timeout := None; mounted := false; awaiting := None |}
              ltac:(vm_compute; reflexivity) eq_refl (or_intror eq_refl))
    as (Hstep & Hdoc & _).
  split; [by rewrite Hstep|]. by rewrite Hdoc.
Defined.

Lemma document_head_fetchPredictions_func j input p :
  document_head (fetchPredictions_func j input p) = document_head p.
Proof.
  unfold fetchPredictions_func.
  destruct (hooks p !! j) as [h|]; [|done].
  destruct (_ || _); [done|].
  by destruct (google_maps_places _).
Qed.

(** A script element stays as it is until it fires [load] or [error]. *)
Lemma script_step e p k s :
  fires k e = false →
  document_head p !! k = Some s →
  document_head (step e p) !! k = Some s.
Proof.
  intros Hfires Hk.
  destruct e as [key o|j|j input|d|q results|j placeId|q place status|j|k'|k'|b];
    simpl; try done.
  - destruct (hooks p !! j) as [h|]; [|done].
    destruct (mounted h); [done|].
    unfold onMounted, loadGoogleMapsApi.
    destruct (hooks _ !! j); [|done].
    destruct (google_maps_places _); [done|].
    destruct (googleMapsApiLoaded _); [done|].
    simpl. by apply lookup_app_l_Some.
  - unfold fetchPredictions. destruct (hooks p !! j) as [h|]; [|done].
    by destruct (debounced _ _ _ _).
  - apply (idle_ind (λ p', document_head p' !! k = Some s)); [done|].
    intros j input p' Hp'. by rewrite document_head_fetchPredictions_func.
  - destruct (predictionQueries p !! q) as [query|] eqn:Hq; [|done].
    destruct (pq_answered query); [done|].
    unfold predictions_callback. by rewrite Hq.
  - unfold fetchPlaceDetails. destruct (hooks p !! j) as [h|]; [|done].
    destruct (negb _); [done|]. by destruct (google_maps_places p).
  - destruct (detailsQueries p !! q) as [query|] eqn:Hq; [|done].
    destruct (dq_answered query); [done|].
    unfold details_callback. rewrite Hq.
    by destruct (google_maps_places p).
  - simpl in Hfires. apply Nat.eqb_neq in Hfires.
    destruct (document_head p !! k') as [s'|]; [|done].
    destruct (is_pending _); [|done].
    simpl. by rewrite list_lookup_alter_ne.
  - simpl in Hfires. apply Nat.eqb_neq in Hfires.
    destruct (document_head p !! k') as [s'|]; [|done].
    destruct (is_pending _); [|done].
    simpl. by rewrite list_lookup_alter_ne.
Qed.

(** A hook whose mounted callback waits on script [k] keeps waiting, not
    loaded, until that script fires. *)
Lemma waiting_step e p i h k :
  fires k e = false →
  hooks p !! i = Some h →
  mounted h = true ∧ awaiting h = Some k ∧ isGoogleMapsApiLoaded h = false →
  ∃ h', hooks (step e p) !! i = Some h' ∧
        mounted h' = true ∧ awaiting h' = Some k ∧
        isGoogleMapsApiLoaded h' = false.
Proof.
  intros Hfires Hi (Hm & Hw & Hl).
  destruct (hook_step_cases e p i h Hi) as (h' & Hi' & Hch).
  exists h'. split; [done|].
  destruct Hch as [->|Hch]; [done|].
  destruct Hch; simpl in *; try done; try congruence.
  - assert (k0 = k) as -> by congruence. by rewrite Nat.eqb_refl in Hfires.
  - assert (k0 = k) as -> by congruence. by rewrite Nat.eqb_refl in Hfires.
Qed.

Lemma waiting_run tr p i h k s :
  forallb (λ e, negb (fires k e)) tr = true →
  hooks p !! i = Some h →
  mounted h = true ∧ awaiting h = Some k ∧ isGoogleMapsApiLoaded h = false →
  document_head p !! k = Some s →
  (∃ h', hooks (run tr p) !! i = Some h' ∧
         mounted h' = true ∧ awaiting h' = Some k ∧
         isGoogleMapsApiLoaded h' = false) ∧
  document_head (run tr p) !! k = Some s.
Proof.
  revert p h. induction tr as [|e tr IH]; intros p h Htr Hi Hh Hk.
  - split; [by exists h|done].
  - simpl in Htr. apply andb_true_iff in Htr as [He Htr].
    apply negb_true_iff in He.
    destruct (waiting_step e p i h k He Hi Hh) as (h1 & Hi1 & Hh1).
    apply (IH (step e p) h1); try done. by apply script_step.
Qed.

(** X7.  When a component is mounted on a page without the namespace and
    with [googleMapsApiLoaded] unset, exactly one script is appended to the
    document, built from the hook's own key, libraries and language, and the
    hook waits for it.  Until that very script fires, the hook stays not
    loaded, whatever else happens: the namespace showing up, another
    component's script loading and setting [googleMapsApiLoaded].  When it
    fires [load], the hook is loaded. *)
Theorem hook_loads_with_its_own_script (before tr : list Event) (i : nat)
    (h : Hook) :
  let p := run before start in
  hooks p !! i = Some h →
  mounted h = false →
  google_maps_places p = false →
  googleMapsApiLoaded p = false →
  let k := length (document_head p) in
  let p1 := step (Mount i) p in
  document_head p1 =
    document_head p ++
      [{| src := script_src (apiKey h) (libraries h) (language h);
          async := true; defer := true; load_promise := Pending |}] ∧
  hook_flag i p1 = Some false ∧
  (forallb (λ e, negb (fires k e)) tr = true →
   hook_flag i (run tr p1) = Some false ∧
   hook_flag i (step (ScriptLoad k) (run tr p1)) = Some true ∧
   googleMapsApiLoaded (step (ScriptLoad k) (run tr p1)) = true).
Proof.
  intros p Hi Hm Hg Hf k p1.
  assert (Hinv : inv p) by apply inv_run, inv_start.
  destruct (proj1 Hinv i h Hi) as (Ha & _ & _).
  destruct (Ha Hm) as [Hl Hw].
  set (script := {| src := script_src (apiKey h) (libraries h) (language h);
                    async := true; defer := true; load_promise := Pending |}).
  assert (Hp1 : p1 = upd_hook i (set_awaiting (Some k))
                       (with_document_head (document_head p ++ [script])
                          (upd_hook i (set_mounted true) p))).
  { unfold p1. simpl. rewrite Hi, Hm.
    unfold onMounted.
    rewrite (upd_hook_lookup i (set_mounted true) p h Hi).
    change (google_maps_places (upd_hook i (set_mounted true) p))
      with (google_maps_places p).
    rewrite Hg. unfold loadGoogleMapsApi.
    change (googleMapsApiLoaded (upd_hook i (set_mounted true) p))
      with (googleMapsApiLoaded p).
    rewrite Hf. done. }
  assert (Hi1 : hooks p1 !! i =
                  Some (set_awaiting (Some k) (set_mounted true h))).
  { rewrite Hp1.
    apply (upd_hook_lookup i _ (with_document_head _ _)).
    by apply upd_hook_lookup. }
  assert (Hk1 : document_head p1 !! k = Some script).
  { rewrite Hp1. simpl. by apply list_lookup_middle. }
  split; [by rewrite Hp1|]. split.
  { unfold hook_flag. rewrite Hi1. simpl. by rewrite Hl. }
  intros Htr.
  destruct (waiting_run tr p1 i _ k script Htr Hi1) as [(h' & Hi' & Hh') Hk'];
    [done|done|].
  destruct Hh' as (Hm' & Hw' & Hl').
  split; [|split].
  - unfold hook_flag. rewrite Hi'. simpl. by rewrite Hl'.
  - unfold hook_flag. simpl. rewrite Hk'. simpl.
    rewrite list_lookup_fmap, Hi'. simpl.
    unfold resume. by rewrite decide_True.
  - rewrite flag_step, Hk'. done.
Qed.

(** Two components; the second is mounted while the first one's script is
    still loading.  The first script loads and the namespace shows up: the
    second hook is still not loaded.  Then its own script loads. *)
Lemma hook_loads_with_its_own_script_witness :
  let p1 := step (Mount 1) (run [Use "K1" None; Use "K2" None; Mount 0] start) in
  let tr := [ScriptLoad 0; Namespace true; Search 1 "a"; Elapse 300] in
  hook_flag 0 (run tr p1) = Some true ∧
  hook_flag 1 (run tr p1) = Some false ∧
  hook_flag 1 (step (ScriptLoad 1) (run tr p1)) = Some true.
Proof.
  intros p1 tr.
  destruct (hook_loads_with_its_own_script
              [Use "K1" None; Use "K2" None; Mount 0] tr 1
              {| apiKey := "K2"; debounceTime := 300; predictionOptions := ∅;
                 libraries := ["places"%string]; language := "en";
                 predictions := []; loading := false;
                 isGoogleMapsApiLoaded := false; addressInfo := None;
                 timeout := None; mounted := false; awaiting := None |}
              ltac:(vm_compute; reflexivity) eq_refl eq_refl eq_refl)
    as (_ & _ & Hrun).
  destruct (Hrun eq_refl) as (Hstill & Hthen & _).
  split; [reflexivity|]. split; [exact Hstill|exact Hthen].
Defined.

(* ===================================================================== *)
(** * The component: configuration *)
(* ===================================================================== *)

(** X8.  Whatever props the parent passes, the hook of the component
    debounces by 500 ms (not the hook's own default of 300), loads only the
    [places] library, and never has an empty language: a [language] prop left
    out or empty gives "en".  A [predictionOptions] prop left out gives
    [{ types: ['address'], componentRestrictions: { country: 'br' } }], so
    that the queries of such a component carry these two properties beside
    [input]. *)
Theorem component_configuration (props : Props.t) (pg : Page) :
  let c := (setup props pg).1 in
  let pg' := (setup props pg).2 in
  ∃ comp h,
    components pg' !! c = Some comp ∧
    hooks (process pg') !! Component.hook comp = Some h ∧
    Component.query comp = ""%string ∧
    Component.emitted comp = [] ∧
    apiKey h = Props.apiKey props ∧
    debounceTime h = 500%Z ∧
    libraries h = ["places"%string] ∧
    language h =
      match Props.language props with
      | Some s => if decide (s = ""%string) then "en"%string else s
      | None => "en"%string
      end ∧
    predictionOptions h =
      match Props.predictionOptions props with
      | Some o => o
      | None => default_predictionOptions
      end ∧
    (∀ input,
       Props.predictionOptions props = None →
       prediction_request input (predictionOptions h) !! "input"%string =
         Some (JStr input) ∧
       prediction_request input (predictionOptions h) !! "types"%string =
         Some (JArr [JStr "address"]) ∧
       prediction_request input (predictionOptions h)
         !! "componentRestrictions"%string =
         Some (JObj [("country"%string, JStr "br")])).
Proof.
  intros c pg'. unfold pg', c, setup, useGooglePlacesAutocomplete. simpl.
  eexists _, _. split; [by apply list_lookup_middle|].
  split; [by apply list_lookup_middle|]. simpl.
  split; [done|]. split; [done|]. split; [done|]. split; [done|].
  split; [done|]. split; [|split].
  - unfold string_or, object_or. destruct (Props.language props) as [s|]; done.
  - by destruct (Props.predictionOptions props).
  - intros input Hnone. rewrite Hnone. simpl.
    rewrite !prediction_request_lookup. done.
Qed.

(** A parent that passes only the key. *)
Lemma component_configuration_witness :
  let props := {| Props.apiKey := "KEY"; Props.predictionOptions := None;
                  Props.placeholder := None; Props.language := None |} in
  ∃ comp h,
    components (setup props blank).2 !! 0 = Some comp ∧
    hooks (process (setup props blank).2) !! Component.hook comp = Some h ∧
    debounceTime h = 500%Z ∧
    prediction_request "Av. Paulista" (predictionOptions h)
      !! "types"%string = Some (JArr [JStr "address"]).
Proof.
  intros props.
  destruct (component_configuration props blank)
    as (comp & h & Hc & Hh & _ & _ & _ & Hd & _ & _ & _ & Hreq).
  exists comp, h. split; [exact Hc|]. split; [exact Hh|].
  split; [exact Hd|].
  apply (Hreq "Av. Paulista"%string eq_refl).
Defined.

(* ===================================================================== *)
(** * The component: the end of a task *)
(* ===================================================================== *)

Lemma promises_resume_selectPlace n c pg :
  promises (process (resume_selectPlace n c pg)) = promises (process pg).
Proof.
  unfold resume_selectPlace.
  destruct (components pg !! c) as [comp|]; [|done].
  destruct (promises (process pg) !! n) as [[|v|m]|]; done.
Qed.

Lemma resume_selectPlace_pending n c pg :
  promises (process pg) !! n = Some Pending →
  resume_selectPlace n c pg = pg.
Proof.
  intros Hn. unfold resume_selectPlace. rewrite Hn.
  by destruct (components pg !! c).
Qed.

Lemma promises_fold_resume (rs : list (nat * nat)) pg :
  promises (process (foldl (λ pg r, resume_selectPlace r.1 r.2 pg) pg rs)) =
    promises (process pg).
Proof.
  revert pg. induction rs as [|r rs IH]; intros pg; simpl; [done|].
  by rewrite IH, promises_resume_selectPlace.
Qed.

Lemma fold_resume_pending (rs : list (nat * nat)) pg :
  (∀ r, r ∈ rs → promises (process pg) !! r.1 = Some Pending) →
  foldl (λ pg r, resume_selectPlace r.1 r.2 pg) pg rs = pg.
Proof.
  induction rs as [|r rs IH]; intros Hall; simpl; [done|].
  rewrite resume_selectPlace_pending by (apply Hall, elem_of_cons; by left).
  apply IH. intros r' Hr'. apply Hall, elem_of_cons. by right.
Qed.

Lemma filter_all {X : Type} (P : X → Prop) `{!∀ x, Decision (P x)}
    (l : list X) :
  (∀ x, x ∈ l → P x) → filter P l = l.
Proof.
  induction l as [|x l IH]; intros Hall; [done|].
  rewrite filter_cons_True by (apply Hall, elem_of_cons; by left).
  f_equal. apply IH. intros y Hy. apply Hall, elem_of_cons. by right.
Qed.

Lemma still_pending_true p n :
  still_pending p n = true ↔ promises p !! n = Some Pending.
Proof.
  unfold still_pending.
  destruct (promises p !! n) as [[|v|m]|]; split; congruence.
Qed.

(** When no awaited promise is settled, the end of the task changes
    nothing. *)
Lemma drain_pending pg :
  (∀ r, r ∈ reactions pg → promises (process pg) !! r.1 = Some Pending) →
  drain pg = pg.
Proof.
  intros Hall. unfold drain.
  rewrite fold_resume_pending by done.
  rewrite filter_all; [by destruct pg|].
  intros r Hr. by apply still_pending_true, Hall.
Qed.

(** After the end of a task, every [selectPlace] still suspended waits on a
    promise that is pending. *)
Lemma reactions_drain pg r :
  r ∈ reactions (drain pg) →
  promises (process (drain pg)) !! r.1 = Some Pending.
Proof.
  unfold drain. simpl. intros [Hp _]%list_elem_of_filter.
  rewrite promises_fold_resume. by apply still_pending_true.
Qed.

Lemma page_run_snoc l a pg :
  page_run (l ++ [a]) pg = page_step a (page_run l pg).
Proof. unfold page_run. by rewrite foldl_app. Qed.

Lemma reactions_page_run l r :
  r ∈ reactions (page_run l blank) →
  promises (process (page_run l blank)) !! r.1 = Some Pending.
Proof.
  destruct l as [|a l _] using rev_ind.
  - simpl. intros Hr. by apply elem_of_nil in Hr.
  - rewrite page_run_snoc. apply reactions_drain.
Qed.

(** When only the last suspended [selectPlace] has its promise settled, the
    end of the task resumes that one and nothing else. *)
Lemma drain_last rs n c pg :
  reactions pg = rs ++ [(n, c)] →
  (∀ r, r ∈ rs → promises (process pg) !! r.1 = Some Pending) →
  still_pending (process pg) n = false →
  drain pg = with_reactions rs (resume_selectPlace n c pg).
Proof.
  intros Hrs Hall Hn. unfold drain. rewrite Hrs, foldl_app.
  rewrite (fold_resume_pending rs pg) by done. simpl.
  rewrite filter_app, filter_all.
  2:{ intros r Hr. by apply still_pending_true, Hall. }
  rewrite filter_cons_False by (simpl; congruence).
  by rewrite filter_nil, app_nil_r.
Qed.

(* ===================================================================== *)
(** * The component: choosing a suggestion *)
(* ===================================================================== *)

(** A click on a suggestion of a loaded component, and then the service's
    answer to the lookup it started, spelled out. *)
Lemma click_then_answer (l : list Interaction) (c k : nat)
    (comp : Component.t) (h : Hook) (pr : Prediction) :
  let pg := page_run l blank in
  components pg !! c = Some comp →
  hooks (process pg) !! Component.hook comp = Some h →
  isGoogleMapsApiLoaded h = true →
  google_maps_places (process pg) = true →
  predictions h !! k = Some pr →
  let p := process pg in
  let n := length (promises p) in
  let q := length (detailsQueries p) in
  let dq := {| dq_promise := n; dq_placeId := place_id pr;
               dq_answered := false |} in
  let p' := with_detailsQueries (detailsQueries p ++ [dq])
              (with_promises (promises p ++ [Pending]) p) in
  let pg1 := {| process := p';
                components := <[c:=set_query (description pr) comp]>
                                (components pg);
                reactions := reactions pg ++ [(n, c)] |} in
  page_step (Clicked c k) pg = pg1 ∧
  ∀ (place : option PlaceResult) (status : PlacesServiceStatus),
    let p'' := with_promises
                 (alter (settle (details_outcome place status)) n
                    (promises p ++ [Pending]))
                 (with_detailsQueries
                    (alter answer_details q (detailsQueries p ++ [dq])) p') in
    page_step (Host (DetailsAnswer q place status)) pg1 =
      with_reactions (reactions pg)
        (resume_selectPlace n c (with_process p'' pg1)) ∧
    promises p'' !! n = Some (details_outcome place status) ∧
    (∀ r, r ∈ reactions pg → promises p'' !! r.1 = Some Pending).
Proof.
  intros pg Hc Hh Hl Hg Hk p n q dq p' raw1.
  pose proof (reactions_page_run l) as HR. fold pg in HR. fold p in HR.
  fold p in Hh, Hg.
  assert (Hclick : interact (Clicked c k) pg = raw1).
  { simpl. rewrite Hc. fold p. rewrite Hh, Hk.
    unfold selectPlace. rewrite Hc. simpl. fold p.
    unfold fetchPlaceDetails. rewrite Hh, Hl. simpl. rewrite Hg.
    unfold raw1, with_reactions, with_process, upd_component. simpl.
    by rewrite (alter_as_insert _ _ _ _ Hc). }
  assert (Hold : ∀ r, r ∈ reactions pg →
                      (promises p ++ [Pending]) !! r.1 = Some Pending).
  { intros r Hr. apply lookup_app_l_Some. by apply HR. }
  split.
  { unfold page_step. rewrite Hclick. apply drain_pending.
    intros r Hr. simpl in Hr. simpl.
    apply elem_of_app in Hr as [Hr|Hr]; [by apply Hold|].
    apply list_elem_of_singleton in Hr. subst r. simpl.
    by apply list_lookup_middle. }
  intros place status p''.
  set (outcome := details_outcome place status) in *.
  assert (Hstep : step (DetailsAnswer q place status) p' = p'').
  { simpl. rewrite list_lookup_middle by done. simpl.
    unfold details_callback. simpl.
    rewrite list_lookup_middle by done. by rewrite Hg. }
  assert (Hn'' : promises p'' !! n = Some outcome).
  { simpl. rewrite list_lookup_alter_eq, list_lookup_middle by done. done. }
  assert (Hsettled : still_pending p'' n = false).
  { unfold still_pending. rewrite Hn''. unfold outcome.
    by destruct status, place. }
  assert (Hold'' : ∀ r, r ∈ reactions pg →
                        promises p'' !! r.1 = Some Pending).
  { intros r Hr. simpl.
    pose proof (Hold r Hr) as Hr'.
    rewrite list_lookup_alter_ne; [done|].
    apply HR, lookup_lt_Some in Hr. unfold n. lia. }
  split; [|by split].
  unfold page_step.
  change (interact (Host (DetailsAnswer q place status)) raw1)
    with (with_process (step (DetailsAnswer q place status) p') raw1).
  rewrite Hstep.
  by apply drain_last.
Qed.

(** X9.  On a page brought about by any interactions, a click on a
    suggestion of a component whose API is loaded writes the suggestion's
    description to [query], hands one lookup for its [place_id] to the
    service and suspends, leaving the list of predictions as it is.  When
    the service answers with [OK] and a place, the component emits
    [place-selected] with that place and the predictions are cleared.  With
    any other answer nothing is emitted, the predictions stay as they were,
    and "Place details not found" is thrown out of [selectPlace]. *)
Theorem selectPlace_outcomes (l : list Interaction) (c k : nat)
    (comp : Component.t) (h : Hook) (pr : Prediction) :
  let pg := page_run l blank in
  components pg !! c = Some comp →
  hooks (process pg) !! Component.hook comp = Some h →
  isGoogleMapsApiLoaded h = true →
  google_maps_places (process pg) = true →
  predictions h !! k = Some pr →
  let n := length (promises (process pg)) in
  let q := length (detailsQueries (process pg)) in
  let pg1 := page_step (Clicked c k) pg in
  pg1 =
    {| process :=
         with_detailsQueries
           (detailsQueries (process pg) ++
              [{| dq_promise := n; dq_placeId := place_id pr;
                  dq_answered := false |}])
           (with_promises (promises (process pg) ++ [Pending]) (process pg));
       components := <[c:=set_query (description pr) comp]> (components pg);
       reactions := reactions pg ++ [(n, c)] |} ∧
  ∀ (place : option PlaceResult) (status : PlacesServiceStatus),
    let pg2 := page_step (Host (DetailsAnswer q place status)) pg1 in
    ∃ comp2 h2,
      components pg2 !! c = Some comp2 ∧
      hooks (process pg2) !! Component.hook comp = Some h2 ∧
      reactions pg2 = reactions pg ∧
      Component.query comp2 = description pr ∧
      match status, place with
      | OK, Some pl =>
          Component.emitted comp2 =
            Component.emitted comp ++ [emit_place_selected (Some pl)] ∧
          predictions h2 = [] ∧
          Component.thrown comp2 = Component.thrown comp
      | _, _ =>
          Component.emitted comp2 = Component.emitted comp ∧
          predictions h2 = predictions h ∧
          Component.thrown comp2 =
            Component.thrown comp ++ ["Place details not found"%string]
      end.
Proof.
  intros pg Hc Hh Hl Hg Hk n q pg1.
  destruct (click_then_answer l c k comp h pr Hc Hh Hl Hg Hk) as [Hpg1 Hans].
  fold pg in Hpg1, Hans. fold n q in Hpg1, Hans.
  split; [exact Hpg1|].
  intros place status pg2.
  destruct (Hans place status) as (Hpg2 & Hn'' & _).
  unfold pg2, pg1. rewrite Hpg1, Hpg2.
  assert (Hc1 : <[c:=set_query (description pr) comp]> (components pg) !! c
                = Some (set_query (description pr) comp)).
  { apply list_lookup_insert_eq. by eapply lookup_lt_Some. }
  unfold resume_selectPlace.
  cbn [process components reactions with_process with_reactions].
  rewrite Hc1, Hn''.
  destruct status, place as [pl|]; simpl;
    (eexists _, _; split;
     [rewrite list_lookup_alter_eq, Hc1; reflexivity|];
     split;
     [first [rewrite list_lookup_alter_eq, Hh; reflexivity | exact Hh]|];
     split; [done|]; split; done).
Qed.

(** The user clicks the suggestion; the service finds nothing. *)
Lemma selectPlace_outcomes_witness :
  let pg1 := page_step (Clicked 0 0) (page_run suggesting blank) in
  ∃ comp2 h2,
    components (page_step (Host (DetailsAnswer 0 None ZERO_RESULTS)) pg1) !! 0
      = Some comp2 ∧
    hooks (process (page_step (Host (DetailsAnswer 0 None ZERO_RESULTS)) pg1))
      !! 0 = Some h2 ∧
    Component.emitted comp2 = [emit_input "a"] ∧
    predictions h2 = [a_street] ∧
    Component.thrown comp2 = ["Place details not found"%string].
Proof.
  intros pg1.
  destruct (selectPlace_outcomes suggesting 0 0 suggesting_component
              suggesting_hook a_street
              ltac:(vm_compute; reflexivity) ltac:(vm_compute; reflexivity)
              eq_refl ltac:(vm_compute; reflexivity) eq_refl)
    as [_ Hans].
  destruct (Hans None ZERO_RESULTS) as (comp2 & h2 & Hc & Hh & _ & _ & He & Hp & Ht).
  exists comp2, h2. split; [exact Hc|]. split; [exact Hh|].
  split; [exact He|]. split; [exact Hp|exact Ht].
Defined.

(** X10.  Choosing a suggestion does not cancel a search that is still
    scheduled.  If the input's debounced search for [input] is pending when
    a suggestion is clicked, then after the place has been found, emitted
    and the predictions cleared, the search still fires when its time has
    come: a query for [input] goes to the service and the component is
    loading again. *)
Theorem selection_does_not_cancel_search (l : list Interaction) (c k : nat)
    (comp : Component.t) (h : Hook) (pr : Prediction) (hd t d : nat)
    (input : string) (pl : PlaceResult) :
  let pg := page_run l blank in
  components pg !! c = Some comp →
  hooks (process pg) !! Component.hook comp = Some h →
  isGoogleMapsApiLoaded h = true →
  google_maps_places (process pg) = true →
  predictions h !! k = Some pr →
  queue (timers (process pg)) = [mkTimer hd t (Component.hook comp, input)] →
  input ≠ ""%string →
  t ≤ clock (timers (process pg)) + d →
  let q := length (detailsQueries (process pg)) in
  let pg3 := page_run [Clicked c k; Host (DetailsAnswer q (Some pl) OK);
                       Host (Elapse d)] pg in
  predictionQueries (process pg3) =
    predictionQueries (process pg) ++
      [{| pq_hook := Component.hook comp;
          pq_request := prediction_request input (predictionOptions h);
          pq_answered := false |}] ∧
  ∃ comp3 h3,
    components pg3 !! c = Some comp3 ∧
    Component.emitted comp3 =
      Component.emitted comp ++ [emit_place_selected (Some pl)] ∧
    hooks (process pg3) !! Component.hook comp = Some h3 ∧
    predictions h3 = [] ∧ loading h3 = true.
Proof.
  intros pg Hc Hh Hl Hg Hk Hq Hinput Ht q pg3.
  destruct (click_then_answer l c k comp h pr Hc Hh Hl Hg Hk) as [Hpg1 Hans].
  fold pg in Hpg1, Hans. fold q in Hans.
  destruct (Hans (Some pl) OK) as (Hpg2 & Hn'' & Hold).
  clear Hans.
  set (i := Component.hook comp) in *.
  set (p := process pg) in *.
  set (n := length (promises p)) in *.
  set (comp1 := set_query (description pr) comp) in *.
  assert (Hc1 : <[c:=comp1]> (components pg) !! c = Some comp1).
  { apply list_lookup_insert_eq. by eapply lookup_lt_Some. }
  match type of Hn'' with
  | promises ?x !! _ = _ => set (p'' := x) in *
  end.
  set (p2 := resetPredictions i p'').
  set (pg2 := {| process := p2;
                 components := alter (emit (emit_place_selected (Some pl))) c
                                 (<[c:=comp1]> (components pg));
                 reactions := reactions pg |}).
  assert (Hpg2' : page_run [Clicked c k; Host (DetailsAnswer q (Some pl) OK)]
                    pg = pg2).
  { unfold page_run. cbn [foldl]. rewrite Hpg1, Hpg2.
    unfold resume_selectPlace.
    cbn [process components reactions with_process with_reactions].
    rewrite Hc1. fold p'' in Hn'' |- *. rewrite Hn''. done. }
  set (query := {| pq_hook := i;
                   pq_request := prediction_request input (predictionOptions h);
                   pq_answered := false |}).
  set (p3 := with_predictionQueries (predictionQueries p ++ [query])
               (upd_hook i (set_loading true)
                  (with_timers {| clock := clock (timers p) + d;
                                  fresh := fresh (timers p); queue := [] |}
                     p2))).
  assert (Hi2 : ∀ tm, hooks (with_timers tm p2) !! i =
                        Some (set_predictions [] h)).
  { intros tm. apply (upd_hook_lookup i _ p''). exact Hh. }
  assert (Hidle : idle d p2 = p3).
  { unfold idle, elapse.
    change (timers p2) with (timers p). rewrite Hq. simpl.
    rewrite (proj2 (Nat.leb_le _ _)) by done. simpl.
    unfold fetchPredictions_func. rewrite Hi2. simpl. rewrite Hl. simpl.
    rewrite bool_decide_eq_false_2 by done.
    change (google_maps_places (upd_hook i (set_loading true) _))
      with (google_maps_places p).
    by rewrite Hg. }
  assert (Hpg3 : pg3 = with_process p3 pg2).
  { unfold pg3.
    change [Clicked c k; Host (DetailsAnswer q (Some pl) OK); Host (Elapse d)]
      with ([Clicked c k; Host (DetailsAnswer q (Some pl) OK)] ++
            [Host (Elapse d)]).
    rewrite page_run_snoc, Hpg2'. unfold page_step.
    change (interact (Host (Elapse d)) pg2)
      with (with_process (idle d p2) pg2).
    rewrite Hidle. apply drain_pending.
    intros r Hr. by apply Hold. }
  rewrite Hpg3. split; [done|].
  eexists _, _. split.
  { simpl. by rewrite list_lookup_alter_eq, Hc1. }
  split; [done|]. split.
  { apply (upd_hook_lookup i _ (with_timers _ p2)). apply Hi2. }
  done.
Qed.

(** The user types "ab" and, before the 500 ms are over, clicks the
    suggestion for "a"; the place is found; then the 500 ms are over. *)
Lemma selection_does_not_cancel_search_witness :
  let pg3 := page_run [Clicked 0 0; Host (DetailsAnswer 0 (Some ∅) OK);
                       Host (Elapse 500)] (page_run retyping blank) in
  (λ q, pq_request q !! "input"%string) <$> predictionQueries (process pg3) =
    [Some (JStr "a"); Some (JStr "ab")] ∧
  ∃ comp3 h3,
    components pg3 !! 0 = Some comp3 ∧
    Component.query comp3 = "A St"%string ∧
    hooks (process pg3) !! 0 = Some h3 ∧ loading h3 = true.
Proof.
  intros pg3.
  destruct (selection_does_not_cancel_search retyping 0 0
              (emit (emit_input "ab") (set_query "ab" suggesting_component))
              (set_timeout (Some 2) suggesting_hook) a_street 2 1000 500
              "ab" ∅
              ltac:(vm_compute; reflexivity) ltac:(vm_compute; reflexivity)
              eq_refl ltac:(vm_compute; reflexivity) eq_refl
              ltac:(vm_compute; reflexivity) ltac:(discriminate)
              ltac:(vm_compute; lia))
    as (Hq & comp3 & h3 & Hc & _ & Hh & _ & Hl).
  split.
  - unfold pg3. etrans; [apply (f_equal (fmap _)); exact Hq|].
    vm_compute. reflexivity.
  - exists comp3, h3. split; [exact Hc|]. split; [|by split].
    vm_compute in Hc. by injection Hc as <-.
Defined.

(* ===================================================================== *)
(** * The component: the [input] event *)
(* ===================================================================== *)

Lemma inputs_snoc es e :
  inputs (es ++ [e]) =
    inputs es ++ match e with
                 | emit_input v => [v]
                 | emit_place_selected _ => []
                 end.
Proof. unfold inputs. rewrite omap_app. by destruct e. Qed.

Lemma component_resume_selectPlace n c' pg c comp :
  components pg !! c = Some comp →
  ∃ comp',
    components (resume_selectPlace n c' pg) !! c = Some comp' ∧
    Component.hook comp' = Component.hook comp ∧
    Component.query comp' = Component.query comp ∧
    inputs (Component.emitted comp') = inputs (Component.emitted comp).
Proof.
  intros Hc. unfold resume_selectPlace.
  destruct (components pg !! c') as [comp0|] eqn:Hc'; [|by eauto].
  destruct (promises (process pg) !! n) as [[|v|m]|]; [by eauto| | |by eauto].
  - simpl. rewrite list_lookup_alter.
    case_decide; [subst c'|by eauto].
    rewrite Hc. simpl. eexists. split; [done|]. split; [done|].
    split; [done|]. simpl. by rewrite inputs_snoc, app_nil_r.
  - simpl. rewrite list_lookup_alter.
    case_decide; [subst c'|by eauto].
    rewrite Hc. simpl. by eauto.
Qed.

Lemma component_drain pg c comp :
  components pg !! c = Some comp →
  ∃ comp',
    components (drain pg) !! c = Some comp' ∧
    Component.hook comp' = Component.hook comp ∧
    Component.query comp' = Component.query comp ∧
    inputs (Component.emitted comp') = inputs (Component.emitted comp).
Proof.
  unfold drain. simpl. generalize (reactions pg) as rs.
  intros rs. revert pg comp.
  induction rs as [|r rs IH]; intros pg comp Hc; simpl; [by eauto|].
  destruct (component_resume_selectPlace r.1 r.2 pg c comp Hc)
    as (comp1 & Hc1 & Hh1 & Hq1 & Hi1).
  destruct (IH _ comp1 Hc1) as (comp2 & Hc2 & Hh2 & Hq2 & Hi2).
  exists comp2. split; [done|]. repeat split; congruence.
Qed.

(** [handleInput] emits [query] as it is. *)
Lemma component_handleInput c' pg c comp :
  components pg !! c = Some comp →
  ∃ comp',
    components (handleInput c' pg) !! c = Some comp' ∧
    Component.hook comp' = Component.hook comp ∧
    Component.query comp' = Component.query comp ∧
    inputs (Component.emitted comp') =
      inputs (Component.emitted comp) ++
        (if decide (c' = c) then [Component.query comp] else []).
Proof.
  intros Hc. unfold handleInput.
  destruct (components pg !! c') as [comp0|] eqn:Hc'; simpl.
  - rewrite list_lookup_alter. case_decide as Hcc.
    + subst c'. rewrite Hc. simpl. rewrite Hc in Hc'. injection Hc' as <-.
      eexists. split; [done|]. split; [done|]. split; [done|].
      simpl. by rewrite inputs_snoc.
    + exists comp. by rewrite app_nil_r.
  - exists comp. split; [done|]. split; [done|]. split; [done|].
    case_decide; [subst; congruence|]. by rewrite app_nil_r.
Qed.

(** One task: what the component emits as [input], and what becomes of
    [query] unless a suggestion is chosen. *)
Lemma component_interact a pg c comp :
  components pg !! c = Some comp →
  ∃ comp',
    components (interact a pg) !! c = Some comp' ∧
    Component.hook comp' = Component.hook comp ∧
    inputs (Component.emitted comp') =
      inputs (Component.emitted comp) ++
        heard (Component.query comp) (input_events c [a]) ∧
    (chooses c a = false →
     Component.query comp' =
       written (Component.query comp) (input_events c [a])).
Proof.
  intros Hc. destruct a as [props|c'|c' text|c' k|e|c']; simpl.
  - exists comp. rewrite app_nil_r. split; [|done].
    by apply lookup_app_l_Some.
  - exists comp. rewrite app_nil_r. split; [|done].
    by destruct (components pg !! c').
  - destruct (decide (c' = c)) as [->|Hcc].
    + destruct (component_handleInput c
                  (upd_component c (set_query text) pg) c
                  (set_query text comp))
        as (comp' & Hc' & Hh' & Hq' & Hi').
      { simpl. by rewrite list_lookup_alter_eq, Hc. }
      exists comp'. split; [exact Hc'|]. split; [exact Hh'|].
      rewrite decide_True in Hi' by done. by split.
    + destruct (component_handleInput c'
                  (upd_component c' (set_query text) pg) c comp)
        as (comp' & Hc' & Hh' & Hq' & Hi').
      { simpl. by rewrite list_lookup_alter_ne. }
      exists comp'. split; [exact Hc'|]. split; [exact Hh'|].
      rewrite decide_False in Hi' by done. by split.
  - rewrite app_nil_r.
    destruct (components pg !! c') as [comp0|] eqn:Hc';
      [|exists comp; by rewrite bool_decide_eq_false_2 by congruence].
    destruct (hooks (process pg) !! Component.hook comp0) as [h|];
      [|exists comp; repeat split; done].
    destruct (predictions h !! k) as [pr|];
      [|exists comp; repeat split; done].
    unfold selectPlace. rewrite Hc'.
    destruct (fetchPlaceDetails _ _ _) as [n p]. simpl.
    rewrite list_lookup_alter. case_decide as Hcc.
    + subst c'. rewrite Hc. simpl. eexists. split; [done|].
      split; [done|]. split; [done|].
      intros Hne%bool_decide_eq_false_1. done.
    + exists comp. repeat split; done.
  - exists comp. by rewrite app_nil_r.
  - destruct (component_handleInput c' pg c comp Hc)
      as (comp' & Hc' & Hh' & Hq' & Hi').
    exists comp'. split; [exact Hc'|]. split; [exact Hh'|].
    case_decide; by split.
Qed.

Lemma input_events_cons c a l :
  input_events c (a :: l) = input_events c [a] ++ input_events c l.
Proof. unfold input_events. by rewrite <- omap_app. Qed.

Lemma heard_app q evs evs' :
  heard q (evs ++ evs') = heard q evs ++ heard (written q evs) evs'.
Proof.
  revert q. induction evs as [|ev evs IH]; intros q; simpl; [done|].
  by rewrite IH.
Qed.

Lemma length_heard q evs : length (heard q evs) = length evs.
Proof.
  revert q. induction evs as [|ev evs IH]; intros q; simpl; [done|].
  by rewrite IH.
Qed.

(** X11.  The [input] event is not debounced.  In the course of any
    interactions on the page, a component emits [input] exactly once for
    every [input] event of its field, at once, and for nothing else
    (choosing a suggestion writes [query] without emitting [input]); and it
    keeps the hook it was set up with.  What an event emits is [query] as
    [handleInput] finds it: as long as no suggestion of the component is
    chosen, that is the text of the field for an event outside a
    composition and, the listener of [v-model] writing nothing during a
    composition, the value [query] had before for an event during one. *)
Theorem input_event_emits_query (l : list Interaction) (pg : Page)
    (c : nat) (comp : Component.t) :
  components pg !! c = Some comp →
  ∃ comp',
    components (page_run l pg) !! c = Some comp' ∧
    Component.hook comp' = Component.hook comp ∧
    length (inputs (Component.emitted comp')) =
      length (inputs (Component.emitted comp)) + length (input_events c l) ∧
    (Forall (λ a, chooses c a = false) l →
     Component.query comp' =
       written (Component.query comp) (input_events c l) ∧
     inputs (Component.emitted comp') =
       inputs (Component.emitted comp) ++
         heard (Component.query comp) (input_events c l)).
Proof.
  revert pg comp. induction l as [|a l IH]; intros pg comp Hc.
  - exists comp. simpl. rewrite app_nil_r. repeat split; [done|lia].
  - destruct (component_interact a pg c comp Hc)
      as (comp1 & Hc1 & Hh1 & Hi1 & Hq1).
    destruct (component_drain _ c comp1 Hc1) as (comp2 & Hc2 & Hh2 & Hq2 & Hi2).
    destruct (IH (page_step a pg) comp2 Hc2)
      as (comp3 & Hc3 & Hh3 & Hn3 & Hrest).
    exists comp3. split; [exact Hc3|]. split; [congruence|].
    rewrite input_events_cons. split.
    + rewrite Hn3, Hi2, Hi1, !length_app, length_heard. lia.
    + intros Hall. inversion_clear Hall as [|? ? Ha Hl].
      destruct (Hrest Hl) as [Hq3 Hi3].
      rewrite Hq2, (Hq1 Ha) in Hq3, Hi3.
      split.
      * rewrite Hq3. unfold written. by rewrite foldl_app.
      * rewrite Hi3, Hi2, Hi1, heard_app, <- app_assoc. done.
Qed.

(** A composition in the field of a fresh component: "a" is typed, two
    [input] events arrive during the composition that follows, and the
    composition ends with "ab" in the field. *)
Lemma input_event_emits_query_witness :
  ∃ comp',
    components
      (page_run [Host (Namespace true); Mounted 0; Typed 0 "a"; Composing 0;
                 Composing 0; Typed 0 "ab"; Host (Elapse 500)]
         (page_run [Render only_key] blank)) !! 0 = Some comp' ∧
    Component.query comp' = "ab"%string ∧
    inputs (Component.emitted comp') = ["a"; "a"; "a"; "ab"]%string.
Proof.
  destruct (input_event_emits_query
              [Host (Namespace true); Mounted 0; Typed 0 "a"; Composing 0;
               Composing 0; Typed 0 "ab"; Host (Elapse 500)]
              (page_run [Render only_key] blank) 0
              {| Component.hook := 0; Component.query := "";
                 Component.emitted := []; Component.thrown := [] |}
              ltac:(vm_compute; reflexivity))
    as (comp' & Hc & _ & _ & Hrest).
  destruct (Hrest ltac:(repeat constructor)) as [Hq Hi].
  exists comp'. split; [exact Hc|]. split; [exact Hq|exact Hi].
Defined.

(* ===================================================================== *)
(** * The component: what [place-selected] carries *)
(* ===================================================================== *)

(** A promise of [fetchPlaceDetails] that is not fulfilled with [undefined]
    never becomes so. *)
Lemma promise_step e p n s :
  promises p !! n = Some s →
  s ≠ Resolved None →
  ∃ s', promises (step e p) !! n = Some s' ∧ s' ≠ Resolved None.
Proof.
  intros Hn Hs.
  destruct e as [key o|j|j input|d|q results|j placeId|q place status|j|k'|k'|b];
    simpl; try by eauto.
  - destruct (hooks p !! j) as [h|]; [|by eauto].
    destruct (mounted h); [by eauto|].
    unfold onMounted, loadGoogleMapsApi.
    destruct (hooks _ !! j); [|by eauto].
    destruct (google_maps_places _); [by eauto|].
    destruct (googleMapsApiLoaded _); by eauto.
  - unfold fetchPredictions. destruct (hooks p !! j) as [h|]; [|by eauto].
    destruct (debounced _ _ _ _). by eauto.
  - apply (idle_ind (λ p', ∃ s', promises p' !! n = Some s' ∧ s' ≠ Resolved None));
      [by eauto|].
    intros j input p' Hp'. unfold fetchPredictions_func.
    destruct (hooks p' !! j) as [h|]; [|done].
    destruct (_ || _); [done|].
    by destruct (google_maps_places _).
  - destruct (predictionQueries p !! q) as [query|] eqn:Hq; [|by eauto].
    destruct (pq_answered query); [by eauto|].
    unfold predictions_callback. rewrite Hq. by eauto.
  - unfold fetchPlaceDetails. destruct (hooks p !! j) as [h|]; [|by eauto].
    destruct (negb _); simpl.
    { exists s. split; [by apply lookup_app_l_Some|done]. }
    destruct (google_maps_places p); simpl;
      (exists s; split; [by apply lookup_app_l_Some|done]).
  - destruct (detailsQueries p !! q) as [query|] eqn:Hq; [|by eauto].
    destruct (dq_answered query); [by eauto|].
    unfold details_callback. rewrite Hq.
    destruct (google_maps_places p); simpl; [|by eauto].
    destruct (decide (dq_promise query = n)) as [->|Hne].
    + exists (settle (details_outcome place status) s). split.
      * by rewrite list_lookup_alter_eq, Hn.
      * destruct s; simpl; [|done|done]. by destruct status, place.
    + exists s. by rewrite list_lookup_alter_ne.
  - destruct (document_head p !! k') as [s'|]; [|by eauto].
    destruct (is_pending _); [|by eauto]. simpl. by eauto.
  - destruct (document_head p !! k') as [s'|]; [|by eauto].
    destruct (is_pending _); [|by eauto]. simpl. by eauto.
Qed.

Lemma awaited_step e p rs : awaited p rs → awaited (step e p) rs.
Proof.
  unfold awaited. intros Hrs. eapply Forall_impl; [exact Hrs|].
  intros r (s & Hs & Hne). by apply (promise_step e p r.1 s).
Qed.

Lemma selections_snoc es e :
  selections (es ++ [e]) =
    selections es ++ match e with
                     | emit_place_selected v => [v]
                     | emit_input _ => []
                     end.
Proof. unfold selections. rewrite omap_app. by destruct e. Qed.

Lemma places_only_alter (f : Component.t → Component.t) c comps :
  (∀ comp,
     Forall is_Some (selections (Component.emitted comp)) →
     Forall is_Some (selections (Component.emitted (f comp)))) →
  places_only comps → places_only (alter f c comps).
Proof.
  intros Hf Hall. unfold places_only in *.
  apply Forall_alter; [done|]. intros comp _. apply Hf.
Qed.

(** A fulfilled promise that a suspended [selectPlace] waits for holds a
    place, so that the rest of [selectPlace] emits a place. *)
Lemma page_inv_resume_selectPlace n c pg rs :
  inv (process pg) → places_only (components pg) →
  awaited (process pg) rs → (n, c) ∈ rs →
  inv (process (resume_selectPlace n c pg)) ∧
  places_only (components (resume_selectPlace n c pg)).
Proof.
  intros Hinv Hcomps Hrs Hr.
  unfold awaited in Hrs. rewrite Forall_forall in Hrs.
  destruct (Hrs _ Hr) as (s & Hs & Hne). simpl in Hs.
  unfold resume_selectPlace.
  destruct (components pg !! c) as [comp|]; [|done].
  rewrite Hs. destruct s as [|v|m]; [done| |].
  - split.
    + apply (inv_step (Clear (Component.hook comp))), Hinv.
    + simpl. apply places_only_alter; [|done].
      intros comp' Hcomp'. simpl. rewrite selections_snoc.
      apply Forall_app. split; [done|].
      apply Forall_singleton. destruct v; [by eexists|done].
  - split; [done|]. simpl. by apply places_only_alter.
Qed.

Lemma page_inv_fold_resume (rs rs' : list (nat * nat)) pg :
  inv (process pg) → places_only (components pg) →
  awaited (process pg) rs' → rs ⊆ rs' →
  inv (process (foldl (λ pg r, resume_selectPlace r.1 r.2 pg) pg rs)) ∧
  places_only
    (components (foldl (λ pg r, resume_selectPlace r.1 r.2 pg) pg rs)).
Proof.
  revert pg. induction rs as [|[n c] rs IH]; intros pg Hinv Hcomps Hrs Hsub;
    simpl; [done|].
  destruct (page_inv_resume_selectPlace n c pg rs' Hinv Hcomps Hrs) as [H1 H2].
  { apply Hsub, elem_of_cons. by left. }
  apply IH; [done|done| |].
  - unfold awaited. by rewrite promises_resume_selectPlace.
  - intros r Hr. apply Hsub, elem_of_cons. by right.
Qed.

Lemma page_inv_drain pg : page_inv pg → page_inv (drain pg).
Proof.
  intros (Hinv & Hcomps & Hrs).
  destruct (page_inv_fold_resume (reactions pg) (reactions pg) pg
              Hinv Hcomps Hrs) as [H1 H2]; [done|].
  unfold page_inv, drain. simpl. split; [done|]. split; [done|].
  unfold awaited. rewrite promises_fold_resume.
  unfold awaited in Hrs. rewrite Forall_forall in Hrs |- *.
  intros r Hr. apply Hrs. apply list_elem_of_filter in Hr. tauto.
Qed.

Lemma selectPlace_step c pr pg comp :
  components pg !! c = Some comp →
  selectPlace c pr pg =
    {| process :=
         step (Details (Component.hook comp) (place_id pr)) (process pg);
       components := alter (set_query (description pr)) c (components pg);
       reactions := reactions pg ++ [(length (promises (process pg)), c)] |}.
Proof.
  intros Hc. unfold selectPlace. rewrite Hc. simpl.
  unfold fetchPlaceDetails.
  destruct (hooks (process pg) !! Component.hook comp) as [h|]; [|done].
  destruct (negb _); [done|].
  by destruct (google_maps_places (process pg)).
Qed.

(** The promise that [fetchPlaceDetails] returns to a hook whose API is
    loaded is pending or rejected. *)
Lemma promise_of_loaded_hook i placeId p h :
  hooks p !! i = Some h →
  isGoogleMapsApiLoaded h = true →
  ∃ s, promises (step (Details i placeId) p) !! length (promises p) = Some s ∧
       s ≠ Resolved None.
Proof.
  intros Hh Hl. simpl. unfold fetchPlaceDetails. rewrite Hh, Hl. simpl.
  destruct (google_maps_places p); simpl.
  - exists Pending. split; [|done]. apply list_lookup_middle. done.
  - exists (Rejected "TypeError"%string). split; [|done].
    apply list_lookup_middle. done.
Qed.

Lemma page_inv_interact a pg : page_inv pg → page_inv (interact a pg).
Proof.
  intros (Hinv & Hcomps & Hrs).
  destruct a as [props|c|c text|c k|e|c]; simpl.
  - unfold setup.
    pose proof (inv_step (Use (Props.apiKey props)
      (Some {| Options.debounceTime := Some 500%Z;
               Options.predictionOptions :=
                 Some (object_or (Props.predictionOptions props)
                         default_predictionOptions);
               Options.libraries := None;
               Options.language :=
                 Some (object_or (Props.language props) "en"%string) |}))
      _ Hinv) as Hinv'.
    pose proof (awaited_step (Use (Props.apiKey props)
      (Some {| Options.debounceTime := Some 500%Z;
               Options.predictionOptions :=
                 Some (object_or (Props.predictionOptions props)
                         default_predictionOptions);
               Options.libraries := None;
               Options.language :=
                 Some (object_or (Props.language props) "en"%string) |}))
      _ _ Hrs) as Hrs'.
    simpl in Hinv', Hrs'. simpl.
    split; [exact Hinv'|]. split; [|exact Hrs'].
    simpl. apply Forall_app. split; [done|].
    apply Forall_singleton. simpl. by apply Forall_nil.
  - destruct (components pg !! c) as [comp|]; [|done].
    split; [by apply (inv_step (Mount _))|].
    split; [done|]. by apply (awaited_step (Mount _)).
  - unfold handleInput. simpl.
    destruct (alter (set_query text) c (components pg) !! c) as [comp|];
      simpl.
    + split; [by apply (inv_step (Search _ _))|].
      split; [|by apply (awaited_step (Search _ _))].
      apply places_only_alter.
      { intros comp' Hcomp'. simpl. rewrite selections_snoc, app_nil_r. done. }
      by apply places_only_alter.
    + split; [done|]. split; [|done]. by apply places_only_alter.
  - destruct (components pg !! c) as [comp|] eqn:Hc; [|done].
    destruct (hooks (process pg) !! Component.hook comp) as [h|] eqn:Hh;
      [|done].
    destruct (predictions h !! k) as [pr|] eqn:Hk; [|done].
    rewrite (selectPlace_step c pr pg comp Hc).
    assert (Hl : isGoogleMapsApiLoaded h = true).
    { destruct (isGoogleMapsApiLoaded h) eqn:Hl; [done|].
      destruct Hinv as [Hhooks _].
      destruct (Hhooks _ _ Hh) as (_ & _ & Hno).
      destruct (Hno Hl) as (Hnil & _). by rewrite Hnil in Hk. }
    split; [by apply (inv_step (Details _ _))|].
    split; [by apply places_only_alter|].
    simpl. unfold awaited. apply Forall_app. split.
    + by apply (awaited_step (Details _ _)).
    + apply Forall_singleton.
      exact (promise_of_loaded_hook _ (place_id pr) _ h Hh Hl).
  - split; [by apply inv_step|]. split; [done|]. by apply awaited_step.
  - unfold handleInput.
    destruct (components pg !! c) as [comp|]; simpl; [|done].
    split; [by apply (inv_step (Search _ _))|].
    split; [|by apply (awaited_step (Search _ _))].
    apply places_only_alter; [|done].
    intros comp' Hcomp'. simpl. by rewrite selections_snoc, app_nil_r.
Qed.

Lemma page_inv_blank : page_inv blank.
Proof.
  split; [apply inv_start|]. split; [apply Forall_nil; done|].
  unfold awaited. by apply Forall_nil.
Qed.

Lemma page_inv_run l pg : page_inv pg → page_inv (page_run l pg).
Proof.
  revert pg. induction l as [|a l IH]; intros pg Hpg; simpl; [done|].
  apply IH. unfold page_step. by apply page_inv_drain, page_inv_interact.
Qed.

(** X12.  [fetchPlaceDetails] returns [undefined] when the hook's API is not
    loaded, and [selectPlace] would emit that; yet a component driven
    through its template never does.  On a page built up from nothing by any
    interactions (components rendered and mounted, texts typed, suggestions
    of the list clicked, and whatever the host does: timers, script events,
    answers of the service in any order or none, the namespace appearing or
    vanishing), every [place-selected] event that any component has emitted
    carries a place, never [undefined]: a suggestion can only be clicked
    where the list shows it, and the list shows nothing while the API is
    not loaded. *)
Theorem place_selected_carries_a_place (l : list Interaction) :
  Forall
    (λ comp, Forall is_Some (selections (Component.emitted comp)))
    (components (page_run l blank)).
Proof.
  destruct (page_inv_run l blank page_inv_blank) as (_ & Hcomps & _).
  exact Hcomps.
Qed.
